(** * The boardgame.io client: dispatchers, middleware pipeline, log
      reconciliation, transport selection and view projection.

    A shallow embedding of [src/client/client.js].  The client object is a
    record, its methods are computations in a small state-and-exception
    monad over the client and the trace of calls it makes on its
    collaborators (transport hooks, subscribed listeners, the logger).
    Closures of the source are defunctionalised: a dispatcher is the record
    of the values it closes over, a subscription callback is the chain of
    listeners it will run, an unsubscribe handle is the callback it
    restores.

    The collaborators are outside the file: a call on the transport, on a
    listener or on the logger is recorded in the trace with its arguments
    and has no effect on the client; the reducer, [Game], the
    active-player predicate and [playerView] are total functions supplied
    from outside. A [transport] property that is defined is taken to be a
    class, and the constructors of the collaborators are taken to return.
    The debug panel's two methods are modelled on the two fields they
    use. The bot loop ([step]) and a caller-supplied store
    enhancer are not covered. *)

From stdpp Require Import gmap strings list sorting.
From Stdlib Require Import ZArith Lia.

(** ** JavaScript values the client inspects *)

(** [playerID]: [undefined], [null] or a player name. *)
Inductive PlayerID :=
  | PlayerUndefined
  | PlayerNull
  | PlayerName (name : string).

#[global] Instance PlayerID_eq_dec : EqDecision PlayerID.
Proof. solve_decision. Defined.

(** [playerID === null || playerID === undefined] *)
Definition unbound (p : PlayerID) : bool :=
  match p with
  | PlayerName _ => false
  | _ => true
  end.

(** Identity of a caller-supplied transport class. *)
Definition TransportClass := nat.

(** An object passed as [multiplayer]: [local] records whether
    [multiplayer.local === true]; [server] and [transport] are [None] when
    the property is [undefined]. *)
Record MultiplayerObject := {
  local : bool;
  server : option string;
  transport_class : option TransportClass;
}.

(** The [multiplayer] option: absent, [null], a boolean, another primitive
    (a number or a string, of which only the truthiness matters: reading a
    property of it gives [undefined]), or an object. *)
Inductive Multiplayer :=
  | MultiplayerUndefined
  | MultiplayerNull
  | MultiplayerBool (b : bool)
  | MultiplayerPrimitive (isTruthy : bool)
  | MultiplayerObj (o : MultiplayerObject).

(** JavaScript truthiness of [multiplayer], as tested by [!multiplayer] and
    [this.multiplayer && ...]. *)
Definition truthy (m : Multiplayer) : bool :=
  match m with
  | MultiplayerUndefined | MultiplayerNull => false
  | MultiplayerBool b => b
  | MultiplayerPrimitive t => t
  | MultiplayerObj _ => true
  end.

(** A log entry: the [_stateID] tag and an opaque payload. *)
Record LogEntry := {
  _stateID : Z;
  entry : string;
}.

#[global] Instance LogEntry_eq_dec : EqDecision LogEntry.
Proof. solve_decision. Defined.

(** The parts of [ctx] this layer reads. [gameover] is [None] when the
    property is [undefined]. *)
Record Ctx := {
  currentPlayer : string;
  gameover : option string;
}.

Inductive ActionType :=
  | MAKE_MOVE
  | GAME_EVENT
  | RESET
  | UNDO
  | REDO
  | SYNC
  | UPDATE
  | OTHER (t : string).

Record Payload := {
  payload_type : string;
  payload_args : list string;
  payload_playerID : PlayerID;
  payload_credentials : option string;
}.

(** Which creator of [ActionCreators] a dispatcher calls. *)
Inductive StoreActionType := makeMove | gameEvent.

(** Exceptions. *)
Inductive Error :=
  | TypeError (msg : string).

Inductive Outcome (A : Type) :=
  | Returned (a : A)
  | Thrown (e : Error).
Arguments Returned {A} a.
Arguments Thrown {A} e.

(** Identity of a function passed to [subscribe]. *)
Definition Listener := nat.

(** [this.subscribeCallback]: the initial [() => {}], or the closure
    [() => { prev(); fn(this.getState()); }] built by [subscribe]. *)
Inductive Callback :=
  | NoCallback
  | Chain (prev : Callback) (fn : Listener).

(** The handle [() => { this.subscribeCallback = prev; }]. *)
Record Unsubscribe := { restore : Callback }.

(** A dispatcher closure of [createDispatchers]: the values it captured. *)
Record Dispatcher := {
  d_storeActionType : StoreActionType;
  d_name : string;
  d_playerID : PlayerID;
  d_credentials : option string;
  d_multiplayer : Multiplayer;
}.

(** A game definition as passed by the caller. [ref] is the identity of the
    object, which is what [!==] compares. *)
Record GameDef := {
  ref : nat;
  def_name : string;
}.

Section Client.

(** The simulation state [G] is opaque to this layer. *)
Context {G : Type}.

Record State := {
  state_G : G;
  state_ctx : Ctx;
  state_deltalog : option (list LogEntry);
  state_stateID : Z;
}.

Record Action := {
  type : ActionType;
  payload : option Payload;
  clientOnly : option bool;
  action_state : option State;
  action_deltalog : option (list LogEntry);
  action_log : option (list LogEntry);
}.

(** What [Game(game)] returns, as far as the client uses it. *)
Record Flow := {
  isPlayerActive : G → Ctx → PlayerID → bool;
  enabledEventNames : list string;
}.

Record GameObj := {
  name : string;
  moveNames : list string;
  flow : Flow;
  playerView : G → Ctx → PlayerID → G;
}.

(** The object [new LocalMaster(this.game)], with the [config] the
    constructor attaches to it. [master_id] is its identity. *)
Record LocalMaster := {
  master_id : nat;
  master_game : GameObj;
  config : GameDef;
}.

Record TransportOpts := {
  t_gameID : option string;
  t_playerID : PlayerID;
  t_gameName : string;
  t_numPlayers : option nat;
}.

Inductive TransportImpl :=
  | DefaultTransport
  | LocalTransport (master : LocalMaster) (o : TransportOpts)
  | SocketIOTransport (o : TransportOpts) (srv : string) (socketOpts : option string)
  | CustomTransport (cls : TransportClass) (o : TransportOpts).

Record Transport := {
  impl : TransportImpl;
  isConnected : bool;
}.

(** The value [getState] returns when the store holds a state:
    [{ ...state, isActive, G, log, isConnected }]. *)
Record Snapshot := {
  snap_G : G;
  snap_ctx : Ctx;
  snap_deltalog : option (list LogEntry);
  snap_stateID : Z;
  snap_isActive : bool;
  snap_log : list LogEntry;
  snap_isConnected : bool;
}.

(** The client object. [store] is the state held by the Redux store ([None]
    is [null]); [initialState] is the variable closed over by [reset]. *)
Record Client := {
  game : GameObj;
  playerID : PlayerID;
  gameID : option string;
  credentials : option string;
  multiplayer : Multiplayer;
  subscribeCallback : Callback;
  reducer : option State → Action → option State;
  initialState : option State;
  store : option State;
  log : list LogEntry;
  transport : Transport;
  moves : gmap string Dispatcher;
  events : gmap string Dispatcher;
  gameMetadata : option string;
}.

(** Calls the client makes on its collaborators, in the order made. *)
Inductive Event :=
  | OnAction (baseState : option State) (a : Action)
  | TransportSubscribe (cb : Callback)
  | SubscribeGameMetadata
  | Connect
  | UpdateGameID (id : option string)
  | UpdatePlayerID (id : PlayerID)
  | Notify (fn : Listener) (snapshot : option Snapshot)
  | LoggerError (msg : string).

Record World := {
  this : Client;
  effects : list Event;
}.

(** ** The monad of client methods

    A thrown exception keeps the mutations made before it. *)
Definition M (A : Type) : Type := World → Outcome A * World.

#[global] Instance M_ret : MRet M := λ A a w, (Returned a, w).

#[global] Instance M_bind : MBind M := λ A B f c w,
  match c w with
  | (Returned a, w') => f a w'
  | (Thrown e, w') => (Thrown e, w')
  end.

Definition throw {A : Type} (e : Error) : M A := λ w, (Thrown e, w).

Definition getThis : M Client := λ w, (Returned (this w), w).

Definition setThis (c : Client) : M unit :=
  λ w, (Returned tt, {| this := c; effects := effects w |}).

Definition emit (e : Event) : M unit :=
  λ w, (Returned tt, {| this := this w; effects := effects w ++ [e] |}).

(** Field assignments on [this] and on the store. *)
Definition set_store (s : option State) (c : Client) : Client :=
  {| game := game c; playerID := playerID c; gameID := gameID c;
     credentials := credentials c; multiplayer := multiplayer c;
     subscribeCallback := subscribeCallback c; reducer := reducer c;
     initialState := initialState c; store := s; log := log c;
     transport := transport c; moves := moves c; events := events c;
     gameMetadata := gameMetadata c |}.

Definition set_log (l : list LogEntry) (c : Client) : Client :=
  {| game := game c; playerID := playerID c; gameID := gameID c;
     credentials := credentials c; multiplayer := multiplayer c;
     subscribeCallback := subscribeCallback c; reducer := reducer c;
     initialState := initialState c; store := store c; log := l;
     transport := transport c; moves := moves c; events := events c;
     gameMetadata := gameMetadata c |}.

Definition set_subscribeCallback (cb : Callback) (c : Client) : Client :=
  {| game := game c; playerID := playerID c; gameID := gameID c;
     credentials := credentials c; multiplayer := multiplayer c;
     subscribeCallback := cb; reducer := reducer c;
     initialState := initialState c; store := store c; log := log c;
     transport := transport c; moves := moves c; events := events c;
     gameMetadata := gameMetadata c |}.

Definition set_playerID (p : PlayerID) (c : Client) : Client :=
  {| game := game c; playerID := p; gameID := gameID c;
     credentials := credentials c; multiplayer := multiplayer c;
     subscribeCallback := subscribeCallback c; reducer := reducer c;
     initialState := initialState c; store := store c; log := log c;
     transport := transport c; moves := moves c; events := events c;
     gameMetadata := gameMetadata c |}.

Definition set_gameID (g : option string) (c : Client) : Client :=
  {| game := game c; playerID := playerID c; gameID := g;
     credentials := credentials c; multiplayer := multiplayer c;
     subscribeCallback := subscribeCallback c; reducer := reducer c;
     initialState := initialState c; store := store c; log := log c;
     transport := transport c; moves := moves c; events := events c;
     gameMetadata := gameMetadata c |}.

Definition set_credentials (cr : option string) (c : Client) : Client :=
  {| game := game c; playerID := playerID c; gameID := gameID c;
     credentials := cr; multiplayer := multiplayer c;
     subscribeCallback := subscribeCallback c; reducer := reducer c;
     initialState := initialState c; store := store c; log := log c;
     transport := transport c; moves := moves c; events := events c;
     gameMetadata := gameMetadata c |}.

Definition set_dispatchers (mv ev : gmap string Dispatcher) (c : Client) : Client :=
  {| game := game c; playerID := playerID c; gameID := gameID c;
     credentials := credentials c; multiplayer := multiplayer c;
     subscribeCallback := subscribeCallback c; reducer := reducer c;
     initialState := initialState c; store := store c; log := log c;
     transport := transport c; moves := mv; events := ev;
     gameMetadata := gameMetadata c |}.

Definition modifyThis (f : Client → Client) : M unit :=
  c ← getThis; setThis (f c).

(** ** Action creators *)

(** Modelled from the spec: [ActionCreators.makeMove] and
    [ActionCreators.gameEvent] of [core/action-creators], which is not among
    the sources: "construct an action of kind MAKE_MOVE or GAME_EVENT
    carrying the operation name, argument list, resolved identity, and
    credentials". *)
Definition ActionCreators (t : StoreActionType) (name : string)
    (args : list string) (playerID : PlayerID) (credentials : option string)
    : Action :=
  {| type := match t with makeMove => MAKE_MOVE | gameEvent => GAME_EVENT end;
     payload := Some {| payload_type := name; payload_args := args;
                        payload_playerID := playerID;
                        payload_credentials := credentials |};
     clientOnly := None;
     action_state := None;
     action_deltalog := None;
     action_log := None |}.

(** ** getState (lines 350-397) *)

Definition getState (c : Client) : option Snapshot :=
  match store c with
  | None => None
  | Some state =>
    let isActive := true in
    let isPlayerActive' :=
      isPlayerActive (flow (game c)) (state_G state) (state_ctx state) (playerID c) in
    let isActive :=
      if truthy (multiplayer c) && negb isPlayerActive' then false else isActive in
    let isActive :=
      if negb (truthy (multiplayer c))
         && negb (bool_decide (playerID c = PlayerNull))
         && negb (bool_decide (playerID c = PlayerUndefined))
         && negb isPlayerActive'
      then false else isActive in
    let isActive :=
      if bool_decide (gameover (state_ctx state) ≠ None) then false else isActive in
    let G' := playerView (game c) (state_G state) (state_ctx state) (playerID c) in
    Some {| snap_G := G';
            snap_ctx := state_ctx state;
            snap_deltalog := state_deltalog state;
            snap_stateID := state_stateID state;
            snap_isActive := isActive;
            snap_log := log c;
            snap_isConnected := isConnected (transport c) |}
  end.

(** ** The store and its middleware (lines 162-247) *)

Definition Dispatch : Type := Action → M Action.

(** Redux's own [dispatch]: run the reducer, return the action. *)
Definition storeDispatch : Dispatch := λ action,
  c ← getThis;
  setThis (set_store (reducer c (store c) action) c);;
  mret action.

(** [id] of the UPDATE case: the [_stateID] of the last entry, or [-1]. *)
Definition lastStateID (l : list LogEntry) : Z :=
  match last l with
  | Some e => _stateID e
  | None => (-1)%Z
  end.

Definition LogMiddleware (next : Dispatch) : Dispatch := λ action,
  result ← next action;
  c ← getThis;
  let state := store c in
  match type action with
  | MAKE_MOVE | GAME_EVENT =>
    match state with
    | None => throw (TypeError "state is null")
    | Some st =>
      match state_deltalog st with
      | None => throw (TypeError "deltalog is not iterable")
      | Some deltalog => setThis (set_log (log c ++ deltalog) c)
      end
    end
  | RESET => setThis (set_log [] c)
  | UPDATE =>
    let id := lastStateID (log c) in
    let deltalog := default [] (action_deltalog action) in
    let deltalog := filter (λ l, (_stateID l > id)%Z) deltalog in
    setThis (set_log (log c ++ deltalog) c)
  | SYNC => setThis (set_log (default [] (action_log action)) c)
  | _ => mret tt
  end;;
  mret result.

Definition TransportMiddleware (next : Dispatch) : Dispatch := λ action,
  c ← getThis;
  let baseState := store c in
  result ← next action;
  (if bool_decide (clientOnly action ≠ Some true)
   then emit (OnAction baseState action)
   else mret tt);;
  mret result.

(** Calling a subscription callback. *)
Fixpoint runCallback (cb : Callback) : M unit :=
  match cb with
  | NoCallback => mret tt
  | Chain prev fn =>
    runCallback prev;;
    c ← getThis;
    emit (Notify fn (getState c))
  end.

Definition SubscriptionMiddleware (next : Dispatch) : Dispatch := λ action,
  result ← next action;
  c ← getThis;
  runCallback (subscribeCallback c);;
  mret result.

(** [store.dispatch] after
    [applyMiddleware(SubscriptionMiddleware, TransportMiddleware, LogMiddleware)]. *)
Definition dispatch : Dispatch :=
  SubscriptionMiddleware (TransportMiddleware (LogMiddleware storeDispatch)).

(** ** Dispatchers (lines 28-81) *)

(** [innerActionNames.reduce((dispatchers, name) => { dispatchers[name] =
    ...; return dispatchers; }, {})]. The [store] argument is the store of
    the client the dispatcher is run on. *)
Definition createDispatchers (storeActionType : StoreActionType)
    (innerActionNames : list string) (playerID : PlayerID)
    (credentials : option string) (multiplayer : Multiplayer)
    : gmap string Dispatcher :=
  foldl (λ dispatchers name,
           <[name := {| d_storeActionType := storeActionType;
                        d_name := name;
                        d_playerID := playerID;
                        d_credentials := credentials;
                        d_multiplayer := multiplayer |}]> dispatchers)
        ∅ innerActionNames.

Definition createEventDispatchers := createDispatchers gameEvent.
Definition createMoveDispatchers := createDispatchers makeMove.

(** The identity a dispatcher acts under (lines 38-45). *)
Definition assumedPlayerID (d : Dispatcher) : M PlayerID :=
  if negb (truthy (d_multiplayer d)) && unbound (d_playerID d) then
    c ← getThis;
    match store c with
    | None => throw (TypeError "state is null")
    | Some state => mret (PlayerName (currentPlayer (state_ctx state)))
    end
  else mret (d_playerID d).

(** The action a dispatcher builds when called with [args] (lines 48-53). *)
Definition dispatcherAction (d : Dispatcher) (args : list string) : M Action :=
  p ← assumedPlayerID d;
  mret (ActionCreators (d_storeActionType d) (d_name d) args p (d_credentials d)).

(** Calling [dispatchers[name](...args)]. *)
Definition callDispatcher (d : Dispatcher) (args : list string) : M unit :=
  action ← dispatcherAction d args;
  dispatch action;;
  mret tt.

(** ** Methods of [_ClientImpl] (lines 328-436) *)

Definition subscribe (fn : Listener) : M Unsubscribe :=
  c ← getThis;
  let prev := subscribeCallback c in
  let callback := Chain prev fn in
  setThis (set_subscribeCallback callback c);;
  emit (TransportSubscribe callback);;
  runCallback callback;;
  mret {| restore := prev |}.

(** Calling the handle [subscribe] returned. *)
Definition callUnsubscribe (h : Unsubscribe) : M unit :=
  modifyThis (set_subscribeCallback (restore h)).

Definition connect : M unit := emit Connect.

Definition createDispatchers_ : M unit :=
  c ← getThis;
  let moves' :=
    createMoveDispatchers (moveNames (game c)) (playerID c) (credentials c)
                          (multiplayer c) in
  let events' :=
    createEventDispatchers (enabledEventNames (flow (game c))) (playerID c)
                           (credentials c) (multiplayer c) in
  setThis (set_dispatchers moves' events' c).

Definition updatePlayerID (playerID : PlayerID) : M unit :=
  modifyThis (set_playerID playerID);;
  createDispatchers_;;
  emit (UpdatePlayerID playerID).

Definition updateGameID (gameID : option string) : M unit :=
  modifyThis (set_gameID gameID);;
  createDispatchers_;;
  emit (UpdateGameID gameID).

Definition updateCredentials (credentials : option string) : M unit :=
  modifyThis (set_credentials credentials);;
  createDispatchers_.

(** ** The constructor (lines 87-308) *)

(** The modules the client imports and calls into, none of which is among
    the sources: [Game], [CreateGameReducer], [InitializeGame], the
    [isConnected] flag a transport object starts with, and the action
    creators [reset], [undo] and [redo]. *)
Record Imports := {
  Game : GameDef → GameObj;
  CreateGameReducer : GameObj → option nat → Multiplayer →
                      option State → Action → option State;
  InitializeGame : GameObj → option nat → State;
  initiallyConnected : TransportImpl → bool;
  ActionCreators_reset : option State → Action;
  ActionCreators_undo : Action;
  ActionCreators_redo : Action;
}.

(** The argument of the constructor. The [ai], [debug] and [enhancer]
    options are left [undefined]. *)
Record ClientOpts := {
  opt_game : GameDef;
  opt_numPlayers : option nat;
  opt_multiplayer : Multiplayer;
  opt_socketOpts : option string;
  opt_gameID : option string;
  opt_playerID : PlayerID;
  opt_credentials : option string;
}.

(** The module-level variable [localMaster_], and the number of
    [LocalMaster] objects allocated so far, which names the next one. *)
Record ModuleState := {
  localMaster_ : option LocalMaster;
  allocated : nat;
}.

(** The action Redux dispatches to the reducer when the store is created. *)
Definition reduxInit : Action :=
  {| type := OTHER "@@redux/INIT"; payload := None; clientOnly := None;
     action_state := None; action_deltalog := None; action_log := None |}.

Definition newTransport (I : Imports) (i : TransportImpl) : Transport :=
  {| impl := i; isConnected := initiallyConnected I i |}.

(** Lines 264-298, for [multiplayer] an object. Returns the transport, the
    calls made on the logger, and the new module state. *)
Definition transportFor (I : Imports) (o : ClientOpts) (thisGame : GameObj)
    (noop : Transport) (mo : MultiplayerObject) (ms : ModuleState)
    : Transport * list Event * ModuleState :=
  let opts gameName :=
    {| t_gameID := opt_gameID o; t_playerID := opt_playerID o;
       t_gameName := gameName; t_numPlayers := opt_numPlayers o |} in
  if local mo then
    let fresh :=
      {| master_id := allocated ms; master_game := thisGame;
         config := opt_game o |} in
    let ms' :=
      match localMaster_ ms with
      | None => {| localMaster_ := Some fresh; allocated := S (allocated ms) |}
      | Some lm =>
        if bool_decide (ref (config lm) ≠ ref (opt_game o))
        then {| localMaster_ := Some fresh; allocated := S (allocated ms) |}
        else ms
      end in
    (newTransport I (LocalTransport (default fresh (localMaster_ ms')) (opts (name thisGame))),
     [], ms')
  else
    match server mo with
    | Some srv =>
      (newTransport I (SocketIOTransport (opts (name thisGame)) srv (opt_socketOpts o)),
       [], ms)
    | None =>
      match transport_class mo with
      | Some cls =>
        (newTransport I (CustomTransport cls (opts (def_name (opt_game o)))), [], ms)
      | None => (noop, [LoggerError "invalid multiplayer spec"], ms)
      end
    end.

(** Lines 249-299. *)
Definition selectTransport (I : Imports) (o : ClientOpts) (thisGame : GameObj)
    (ms : ModuleState) : Outcome (Transport * list Event) * ModuleState :=
  let noop := {| impl := DefaultTransport; isConnected := true |} in
  match opt_multiplayer o with
  | MultiplayerUndefined => (Returned (noop, []), ms)
  | MultiplayerNull =>
    (Thrown (TypeError "Cannot read property 'local' of null"), ms)
  | MultiplayerBool true =>
    let '(t, ev, ms') :=
      transportFor I o thisGame noop
        {| local := false; server := Some ""; transport_class := None |} ms in
    (Returned (t, ev), ms')
  | MultiplayerBool false | MultiplayerPrimitive _ =>
    (Returned (noop, [LoggerError "invalid multiplayer spec"]), ms)
  | MultiplayerObj mo =>
    let '(t, ev, ms') := transportFor I o thisGame noop mo ms in
    (Returned (t, ev), ms')
  end.

(** [new _ClientImpl(opts)]. *)
Definition construct (I : Imports) (o : ClientOpts) (ms : ModuleState)
    : Outcome World * ModuleState :=
  let game' := Game I (opt_game o) in
  let reducer' := CreateGameReducer I game' (opt_numPlayers o) (opt_multiplayer o) in
  let initialState' :=
    match opt_multiplayer o with
    | MultiplayerUndefined => Some (InitializeGame I game' (opt_numPlayers o))
    | _ => None
    end in
  match selectTransport I o game' ms with
  | (Thrown e, ms') =>
    (Thrown e, ms')
  | (Returned (transport', ev), ms') =>
    let c :=
      {| game := game';
         playerID := opt_playerID o;
         gameID := opt_gameID o;
         credentials := opt_credentials o;
         multiplayer := opt_multiplayer o;
         subscribeCallback := NoCallback;
         reducer := reducer';
         initialState := initialState';
         store := reducer' initialState' reduxInit;
         log := [];
         transport := transport';
         moves := ∅;
         events := ∅;
         gameMetadata := None |} in
    match (createDispatchers_;; emit SubscribeGameMetadata)
            {| this := c; effects := ev |} with
    | (Returned _, w) => (Returned w, ms')
    | (Thrown e, _) => (Thrown e, ms')
    end
  end.

(** [this.reset], [this.undo], [this.redo] (lines 140-148). *)
Definition reset (I : Imports) : M unit :=
  c ← getThis;
  dispatch (ActionCreators_reset I (initialState c));;
  mret tt.

Definition undo (I : Imports) : M unit :=
  dispatch (ActionCreators_undo I);;
  mret tt.

Definition redo (I : Imports) : M unit :=
  dispatch (ActionCreators_redo I);;
  mret tt.

(** Several clients constructed one after the other in one module. *)
Fixpoint constructAll (I : Imports) (os : list ClientOpts) (ms : ModuleState)
    : ModuleState :=
  match os with
  | [] => ms
  | o :: os' => constructAll I os' (snd (construct I o ms))
  end.

(** Dispatching a list of actions in order. *)
Fixpoint dispatchAll (actions : list Action) : M unit :=
  match actions with
  | [] => mret tt
  | a :: rest => dispatch a;; dispatchAll rest
  end.

End Client.

(** The listeners a callback runs, oldest first. *)
Fixpoint listeners (cb : Callback) : list Listener :=
  match cb with
  | NoCallback => []
  | Chain prev fn => listeners prev ++ [fn]
  end.

(** What running a callback on client [c] tells the listeners. *)
Definition notifications {G : Type} (cb : Callback) (c : @Client G)
    : list (@Event G) :=
  (λ fn, Notify fn (getState c)) <$> listeners cb.

(** The call the transport interceptor makes for [action], if any. *)
Definition relayed {G : Type} (baseState : option (@State G))
    (action : @Action G) : list (@Event G) :=
  if bool_decide (clientOnly action ≠ Some true)
  then [OnAction baseState action] else [].

(** The authority a client's transport talks to, if it is the in-process
    transport. *)
Definition masterOf {G : Type} (w : @World G) : option (@LocalMaster G) :=
  match impl (transport (this w)) with
  | LocalTransport m _ => Some m
  | _ => None
  end.

(** [multiplayer] is an object with [local === true]. *)
Definition isLocal (o : ClientOpts) : bool :=
  match opt_multiplayer o with
  | MultiplayerObj mo => local mo
  | _ => false
  end.

(** [multiplayer] has one of the shapes the constructor acts on: [true],
    [{ local: true }], [{ server }], [{ transport }]. *)
Definition recognized (m : Multiplayer) : bool :=
  match m with
  | MultiplayerBool true => true
  | MultiplayerObj mo =>
    local mo || bool_decide (server mo ≠ None)
    || bool_decide (transport_class mo ≠ None)
  | _ => false
  end.

(** The stateIDs of a log, in order. *)
Definition stateIDs (l : list LogEntry) : list Z := _stateID <$> l.

(** A log whose stateIDs strictly increase. *)
Definition increasing (l : list LogEntry) : Prop :=
  StronglySorted Z.lt (stateIDs l).

#[global] Instance increasing_dec (l : list LogEntry) : Decision (increasing l).
Proof. unfold increasing. apply _. Defined.

(** The log the UPDATE case leaves when it receives [deltalog] (an absent
    deltalog is [None]) while holding [l]. *)
Definition merged (l : list LogEntry) (deltalog : option (list LogEntry))
    : list LogEntry :=
  l ++ filter (λ x, (_stateID x > lastStateID l)%Z) (default [] deltalog).

(** ** A concrete game: two players alternately draw from a deck

    [G] is the number of cards drawn so far; the game is over after
    three draws. *)
Module Draw.

Definition other (p : string) : string :=
  if bool_decide (p = "0") then "1" else "0".

Definition def : GameDef := {| ref := 1; def_name := "draw" |}.

(** A second definition object with the same contents. *)
Definition def' : GameDef := {| ref := 2; def_name := "draw" |}.

Definition gameObj : @GameObj nat :=
  {| name := "draw";
     moveNames := ["draw"];
     flow := {| isPlayerActive :=
                  λ _ ctx p, bool_decide (p = PlayerName (currentPlayer ctx));
                enabledEventNames := ["endTurn"] |};
     playerView := λ g _ _, g |}.

Definition initial : @State nat :=
  {| state_G := 0;
     state_ctx := {| currentPlayer := "0"; gameover := None |};
     state_deltalog := None;
     state_stateID := 0 |}.

Definition reduce (s : option (@State nat)) (a : @Action nat)
    : option (@State nat) :=
  match type a with
  | MAKE_MOVE =>
    st ← s;
    Some {| state_G := S (state_G st);
            state_ctx :=
              {| currentPlayer := other (currentPlayer (state_ctx st));
                 gameover := if bool_decide (state_G st = 2) then Some "done"
                             else None |};
            state_deltalog :=
              Some [ {| _stateID := state_stateID st; entry := "draw" |} ];
            state_stateID := state_stateID st + 1 |}
  | GAME_EVENT =>
    st ← s;
    Some {| state_G := state_G st;
            state_ctx :=
              {| currentPlayer := other (currentPlayer (state_ctx st));
                 gameover := gameover (state_ctx st) |};
            state_deltalog :=
              Some [ {| _stateID := state_stateID st; entry := "endTurn" |} ];
            state_stateID := state_stateID st + 1 |}
  | RESET | SYNC | UPDATE => action_state a
  | _ => s
  end.

Definition resetAction (s : option (@State nat)) : @Action nat :=
  {| type := RESET; payload := None; clientOnly := Some true;
     action_state := s; action_deltalog := None; action_log := None |}.

Definition plain (t : ActionType) : @Action nat :=
  {| type := t; payload := None; clientOnly := None;
     action_state := None; action_deltalog := None; action_log := None |}.

Definition imports : @Imports nat :=
  {| Game := λ _, gameObj;
     CreateGameReducer := λ _ _ _, reduce;
     InitializeGame := λ _ _, initial;
     initiallyConnected := λ _, false;
     ActionCreators_reset := resetAction;
     ActionCreators_undo := plain UNDO;
     ActionCreators_redo := plain REDO |}.

Definition opts (g : GameDef) (m : Multiplayer) (p : PlayerID) : ClientOpts :=
  {| opt_game := g; opt_numPlayers := Some 2; opt_multiplayer := m;
     opt_socketOpts := None; opt_gameID := Some "default"; opt_playerID := p;
     opt_credentials := None |}.

Definition module0 : @ModuleState nat :=
  {| localMaster_ := None; allocated := 0 |}.

(** The world left by a computation, and by a construction. *)
Definition after {A : Type} (c : @M nat A) (w : @World nat) : @World nat :=
  snd (c w).

Definition constructed (o : ClientOpts) (w0 : @World nat) : @World nat :=
  match construct imports o module0 with
  | (Returned w, _) => w
  | _ => w0
  end.

Definition nowhere : @World nat :=
  {| this :=
       {| game := gameObj; playerID := PlayerUndefined; gameID := None;
          credentials := None; multiplayer := MultiplayerUndefined;
          subscribeCallback := NoCallback; reducer := reduce;
          initialState := None; store := None; log := [];
          transport := {| impl := DefaultTransport; isConnected := true |};
          moves := ∅; events := ∅; gameMetadata := None |};
     effects := [] |}.

(** A single-player client with no bound identity. *)
Definition single : @World nat :=
  constructed (opts def MultiplayerUndefined PlayerUndefined) nowhere.

(** A multiplayer client bound to player "1", before its first SYNC. *)
Definition remote : @World nat :=
  constructed (opts def (MultiplayerBool true) (PlayerName "1")) nowhere.

Definition logEntry (id : Z) : LogEntry := {| _stateID := id; entry := "draw" |}.

(** [{ local: true }] *)
Definition colocated : Multiplayer :=
  MultiplayerObj {| local := true; server := None; transport_class := None |}.

(** The world and module state a construction leaves. *)
Definition build (o : ClientOpts) (ms : @ModuleState nat)
    : @World nat * @ModuleState nat :=
  match construct imports o ms with
  | (Returned w, ms') => (w, ms')
  | (Thrown _, ms') => (nowhere, ms')
  end.

(** The move "draw" as the single-player client dispatches it first. *)
Definition draw (p : string) : @Action nat :=
  ActionCreators makeMove "draw" [] (PlayerName p) None.

Definition update (d : list LogEntry) : @Action nat :=
  {| type := UPDATE; payload := None; clientOnly := Some true;
     action_state := Some initial; action_deltalog := Some d;
     action_log := None |}.

End Draw.

(** ** Further parts of the client *)

(** A log whose stateIDs never decrease. *)
Definition nondecreasing (l : list LogEntry) : Prop :=
  StronglySorted Z.le (stateIDs l).

#[global] Instance nondecreasing_dec (l : list LogEntry)
  : Decision (nondecreasing l).
Proof. unfold nondecreasing. apply _. Defined.

Section Operations.

Context {G : Type}.

Definition set_gameMetadata (m : option string) (c : @Client G) : @Client G :=
  {| game := game c; playerID := playerID c; gameID := gameID c;
     credentials := credentials c; multiplayer := multiplayer c;
     subscribeCallback := subscribeCallback c; reducer := reducer c;
     initialState := initialState c; store := store c; log := log c;
     transport := transport c; moves := moves c; events := events c;
     gameMetadata := m |}.

(** The transport calling the function the constructor passed to
    [subscribeGameMetadata] (lines 303-305). *)
Definition receiveGameMetadata (metadata : string) : @M G unit :=
  modifyThis (set_gameMetadata (Some metadata)).

(** What a caller can do with a client once it is constructed. *)
Inductive Op :=
  | OpDispatch (a : @Action G)
  | OpCall (d : Dispatcher) (args : list string)
  | OpSubscribe (fn : Listener)
  | OpUnsubscribe (h : Unsubscribe)
  | OpConnect
  | OpUpdatePlayerID (p : PlayerID)
  | OpUpdateGameID (g : option string)
  | OpUpdateCredentials (cr : option string)
  | OpReset
  | OpUndo
  | OpRedo
  | OpGameMetadata (metadata : string).

Definition runOp (I : @Imports G) (op : Op) : @M G unit :=
  match op with
  | OpDispatch a => dispatch a;; mret tt
  | OpCall d args => callDispatcher d args
  | OpSubscribe fn => subscribe fn;; mret tt
  | OpUnsubscribe h => callUnsubscribe h
  | OpConnect => connect
  | OpUpdatePlayerID p => updatePlayerID p
  | OpUpdateGameID g => updateGameID g
  | OpUpdateCredentials cr => updateCredentials cr
  | OpReset => reset I
  | OpUndo => undo I
  | OpRedo => redo I
  | OpGameMetadata m => receiveGameMetadata m
  end.

(** A sequence of calls, each made on the client the previous one left,
    whether it returned or threw. *)
Definition runOps (I : @Imports G) (ops : list Op) (w : @World G) : @World G :=
  foldl (λ w op, snd (runOp I op w)) w ops.

(** The dispatcher tables are the ones [createDispatchers] builds for the
    identity the client holds. *)
Definition inSync (c : @Client G) : Prop :=
  moves c = createMoveDispatchers (moveNames (game c)) (playerID c)
              (credentials c) (multiplayer c)
  ∧ events c = createEventDispatchers (enabledEventNames (flow (game c)))
                 (playerID c) (credentials c) (multiplayer c).

End Operations.

(** ** The debug panel (lines 310-326)

    The two fields [mount] and [unmount] use, and the calls they make on
    the panel component: [new Debug(...)] and [$destroy()]. A panel is
    named by the number of calls made before it was created. *)
Inductive PanelCall :=
  | NewDebug (panel : nat)
  | Destroy (panel : nat).

#[global] Instance PanelCall_eq_dec : EqDecision PanelCall.
Proof. solve_decision. Defined.

(** [debug] is [None] for [undefined]; [_debugPanel] is [None] for
    [null]. *)
Record Mounting := {
  debug : option bool;
  _debugPanel : option nat;
  panelCalls : list PanelCall;
}.

(** The fields as the constructor leaves them. *)
Definition unmounted (debug : option bool) : Mounting :=
  {| debug := debug; _debugPanel := None; panelCalls := [] |}.

Definition mount (m : Mounting) : Mounting :=
  if bool_decide (debug m ≠ Some false) && bool_decide (_debugPanel m = None)
  then {| debug := debug m;
          _debugPanel := Some (length (panelCalls m));
          panelCalls := panelCalls m ++ [NewDebug (length (panelCalls m))] |}
  else m.

Definition unmount (m : Mounting) : Mounting :=
  match _debugPanel m with
  | Some panel =>
    {| debug := debug m; _debugPanel := None;
       panelCalls := panelCalls m ++ [Destroy panel] |}
  | None => m
  end.

Inductive MountOp := Mount | Unmount.

Definition runMountOp (m : Mounting) (op : MountOp) : Mounting :=
  match op with
  | Mount => mount m
  | Unmount => unmount m
  end.

(** The panels created and not yet destroyed. *)
Fixpoint livePanels (calls : list PanelCall) (live : list nat) : list nat :=
  match calls with
  | [] => live
  | NewDebug p :: rest => livePanels rest (live ++ [p])
  | Destroy p :: rest => livePanels rest (filter (λ q, q ≠ p) live)
  end.

(** ** More sample clients and actions for the game of [Draw] *)
Module Play.

(** A SYNC carrying a one-entry log. *)
Definition sync : @Action nat :=
  {| type := SYNC; payload := None; clientOnly := Some true;
     action_state := Some Draw.initial; action_deltalog := None;
     action_log := Some [Draw.logEntry 5] |}.

(** The multiplayer client after an UPDATE with stateIDs 1 and 2. *)
Definition synced : @World nat :=
  Draw.after (dispatch (Draw.update [Draw.logEntry 1; Draw.logEntry 2]))
             Draw.remote.

(** The state the reducer produces for the first draw. *)
Definition firstDraw : @State nat :=
  {| state_G := 1;
     state_ctx := {| currentPlayer := "1"; gameover := None |};
     state_deltalog := Some [Draw.logEntry 0];
     state_stateID := 1 |}.

(** The single-player client with listeners 7 and 8 subscribed. *)
Definition watched : @World nat :=
  runOps Draw.imports [OpSubscribe 7; OpSubscribe 8] Draw.single.

(** A client constructed with [multiplayer: false]: no initial state, the
    default transport. *)
Definition misconfigured : @World nat :=
  Draw.constructed (Draw.opts Draw.def (MultiplayerBool false) PlayerUndefined)
                   Draw.nowhere.

(** The module after one [{ local: true }] client for [Draw.def]. *)
Definition module1 : @ModuleState nat :=
  snd (construct Draw.imports
         (Draw.opts Draw.def Draw.colocated (PlayerName "0")) Draw.module0).

(** What [getState] returns for the new single-player client. *)
Definition firstSnapshot : @Snapshot nat :=
  {| snap_G := 0;
     snap_ctx := {| currentPlayer := "0"; gameover := None |};
     snap_deltalog := None;
     snap_stateID := 0;
     snap_isActive := true;
     snap_log := [];
     snap_isConnected := true |}.

Definition drawDispatcher (p : PlayerID) (m : Multiplayer) : Dispatcher :=
  {| d_storeActionType := makeMove; d_name := "draw"; d_playerID := p;
     d_credentials := None; d_multiplayer := m |}.

End Play.

(** * Properties *)

Section Properties.

Context {G : Type}.

Implicit Types (w : @World G) (c : @Client G) (a action : @Action G).
Implicit Types (cb : Callback).

(** ** The monad *)

Lemma bind_returned {A B : Type} (m : M A) (f : A → M B) w x w' :
  m w = (Returned x, w') → (m ≫= f) w = f x w'.
Proof. intros H. unfold mbind, M_bind. by rewrite H. Qed.

Lemma bind_thrown {A B : Type} (m : M A) (f : A → M B) w e w' :
  m w = (Thrown e, w') → (m ≫= f) w = (Thrown e, w').
Proof. intros H. unfold mbind, M_bind. by rewrite H. Qed.

Lemma bind_getThis {B : Type} (f : Client → M B) w :
  (getThis ≫= f) w = f (this w) w.
Proof. reflexivity. Qed.

Lemma bind_setThis {B : Type} c (f : unit → M B) w :
  (setThis c ≫= f) w = f tt {| this := c; effects := effects w |}.
Proof. reflexivity. Qed.

Lemma bind_emit {B : Type} (ev : Event) (f : unit → M B) w :
  (emit ev ≫= f) w
  = f tt {| this := this w; effects := effects w ++ [ev] |}.
Proof. reflexivity. Qed.

Ltac run :=
  unfold mbind, M_bind, mret, M_ret, modifyThis, getThis, setThis, emit, throw;
  simpl.

(** ** Callbacks *)

Lemma runCallback_eq cb w :
  runCallback cb w =
    (Returned tt,
     {| this := this w; effects := effects w ++ notifications cb (this w) |}).
Proof.
  revert w. induction cb as [|prev IH fn]; intros [c e].
  - unfold notifications. simpl. run. by rewrite app_nil_r.
  - simpl. rewrite (bind_returned _ _ _ _ _ (IH _)). run.
    unfold notifications. simpl. by rewrite fmap_app, app_assoc.
Qed.

(** ** The pipeline, in terms of what the log interceptor and the reducer
    did *)

Lemma dispatch_returned a w r w' :
  LogMiddleware storeDispatch a w = (Returned r, w') →
  dispatch a w =
    (Returned r,
     {| this := this w';
        effects := effects w' ++ relayed (store (this w)) a
                     ++ notifications (subscribeCallback (this w')) (this w') |}).
Proof.
  intros H. unfold dispatch, SubscriptionMiddleware, TransportMiddleware.
  unfold relayed. destruct w as [c e], w' as [c' e'].
  run. rewrite H. case_bool_decide; run; rewrite runCallback_eq; simpl.
  - by rewrite <- app_assoc.
  - done.
Qed.

Lemma dispatch_thrown a w e w' :
  LogMiddleware storeDispatch a w = (Thrown e, w') →
  dispatch a w = (Thrown e, w').
Proof.
  intros H. unfold dispatch, SubscriptionMiddleware, TransportMiddleware.
  run. by rewrite H.
Qed.

Lemma inner_UPDATE a w :
  type a = UPDATE →
  LogMiddleware storeDispatch a w =
    (Returned a,
     {| this :=
          set_log
            (log (this w)
               ++ filter (λ l, (_stateID l > lastStateID (log (this w)))%Z)
                         (default [] (action_deltalog a)))
            (set_store (reducer (this w) (store (this w)) a) (this w));
        effects := effects w |}).
Proof.
  intros H. unfold LogMiddleware, storeDispatch. run. by rewrite H.
Qed.

Lemma inner_RESET a w :
  type a = RESET →
  LogMiddleware storeDispatch a w =
    (Returned a,
     {| this := set_log [] (set_store (reducer (this w) (store (this w)) a) (this w));
        effects := effects w |}).
Proof.
  intros H. unfold LogMiddleware, storeDispatch. run. by rewrite H.
Qed.

Lemma inner_move a w st d :
  type a = MAKE_MOVE ∨ type a = GAME_EVENT →
  reducer (this w) (store (this w)) a = Some st →
  state_deltalog st = Some d →
  LogMiddleware storeDispatch a w =
    (Returned a,
     {| this := set_log (log (this w) ++ d) (set_store (Some st) (this w));
        effects := effects w |}).
Proof.
  intros H Hst Hd. unfold LogMiddleware, storeDispatch. run.
  rewrite Hst, Hd. by destruct H as [-> | ->].
Qed.

(** ** The log under UPDATE *)

Lemma dispatch_UPDATE a w :
  type a = UPDATE →
  ∃ w', dispatch a w = (Returned a, w')
        ∧ log (this w') = merged (log (this w)) (action_deltalog a).
Proof.
  intros H. eexists. split.
  - apply dispatch_returned, inner_UPDATE, H.
  - reflexivity.
Qed.

Lemma increasing_bounded l x :
  increasing l → x ∈ l → (_stateID x ≤ lastStateID l)%Z.
Proof.
  unfold increasing, stateIDs, lastStateID. revert x.
  induction l as [|y l IH]; intros x Hs Hx; [by apply elem_of_nil in Hx|].
  rewrite fmap_cons in Hs. apply StronglySorted_inv in Hs as [Hs Hy].
  destruct l as [|z l].
  - apply list_elem_of_singleton in Hx as ->. simpl. lia.
  - rewrite last_cons_cons. apply elem_of_cons in Hx as [-> | Hx].
    + assert (z ∈ z :: l) as Hz by (apply elem_of_cons; by left).
      specialize (IH z Hs Hz). rewrite Forall_forall in Hy.
      assert (_stateID y < _stateID z)%Z as Hlt.
      { apply Hy. rewrite fmap_cons. apply elem_of_cons. by left. }
      lia.
    + by apply IH.
Qed.

Lemma increasing_filter (P : LogEntry → Prop) `{!∀ x, Decision (P x)} d :
  increasing d → increasing (filter P d).
Proof.
  unfold increasing, stateIDs. induction d as [|x d IH]; intros Hs; [done|].
  rewrite fmap_cons in Hs. apply StronglySorted_inv in Hs as [Hs Hx].
  rewrite filter_cons. case_decide; [|by apply IH].
  rewrite fmap_cons. constructor; [by apply IH|].
  rewrite Forall_forall in Hx |- *. intros y Hy. apply Hx.
  apply list_elem_of_fmap in Hy as (e & -> & He).
  apply list_elem_of_fmap. exists e. split; [done|].
  by apply list_elem_of_filter in He as [_ He].
Qed.

Lemma increasing_merged l deltalog :
  increasing l → increasing (default [] deltalog) → increasing (merged l deltalog).
Proof.
  intros Hl Hd. unfold merged, increasing, stateIDs. rewrite fmap_app.
  apply StronglySorted_app_2; [|exact Hl|by apply increasing_filter].
  intros i j Hi Hj.
  apply list_elem_of_fmap in Hi as (x & -> & Hx).
  apply list_elem_of_fmap in Hj as (y & -> & Hy).
  apply list_elem_of_filter in Hy as [Hy _].
  pose proof (increasing_bounded _ _ Hl Hx). lia.
Qed.

Lemma increasing_NoDup l : increasing l → NoDup (stateIDs l).
Proof.
  unfold increasing. generalize (stateIDs l) as ids.
  induction 1 as [|i ids Hs IH Hi]; constructor; [|done].
  intros Hin. rewrite Forall_forall in Hi. specialize (Hi _ Hin). lia.
Qed.

(** C1 (as amended). For every sequence of UPDATE actions whose deltalogs
    each list their entries in strictly increasing stateID order, dispatched
    to a client whose log is strictly increasing, every dispatch returns and
    the log afterwards contains each stateID at most once and in strictly
    increasing order. On each UPDATE the incoming deltalog is filtered to
    the entries whose stateID is strictly greater than that of the last
    entry held (or -1 when the log is empty) and the remainder is
    appended. *)
Theorem update_keeps_log_increasing w (updates : list (@Action G)) :
  increasing (log (this w)) →
  Forall (λ a, type a = UPDATE ∧ increasing (default [] (action_deltalog a)))
         updates →
  ∃ w', dispatchAll updates w = (Returned tt, w')
        ∧ log (this w')
          = foldl (λ l a, merged l (action_deltalog a)) (log (this w)) updates
        ∧ increasing (log (this w'))
        ∧ NoDup (stateIDs (log (this w'))).
Proof.
  revert w. induction updates as [|a updates IH]; intros w Hlog Hall.
  - exists w. split_and!; try done. by apply increasing_NoDup.
  - apply Forall_cons in Hall as [[Hty Hd] Hall].
    destruct (dispatch_UPDATE a w Hty) as (w1 & Hrun & Hlog1).
    destruct (IH w1) as (w' & Hrest & Heq & Hinc & Hnd); [|done|].
    { rewrite Hlog1. by apply increasing_merged. }
    exists w'. split_and!; try done.
    + simpl. by rewrite (bind_returned _ _ _ _ _ Hrun).
    + simpl. by rewrite <- Hlog1.
Qed.

(** ** Dispatchers *)

Lemma createDispatchers_lookup t names p cr m name d :
  createDispatchers t names p cr m !! name = Some d →
  d = {| d_storeActionType := t; d_name := name; d_playerID := p;
         d_credentials := cr; d_multiplayer := m |}.
Proof.
  unfold createDispatchers.
  generalize (∅ : gmap string Dispatcher), (lookup_empty (M:=gmap string) (A:=Dispatcher) name).
  intros acc Hacc.
  assert (∀ d', acc !! name = Some d' →
                d' = {| d_storeActionType := t; d_name := name; d_playerID := p;
                        d_credentials := cr; d_multiplayer := m |}) as Hinv.
  { intros d'. by rewrite Hacc. }
  clear Hacc. revert acc Hinv d.
  induction names as [|n names IH]; intros acc Hinv d; simpl; [apply Hinv|].
  apply IH. intros d'. destruct (decide (n = name)) as [->|Hne].
  - rewrite lookup_insert_eq. congruence.
  - rewrite lookup_insert_ne by done. apply Hinv.
Qed.

Lemma createDispatchers_elem t names p cr m name :
  name ∈ names →
  createDispatchers t names p cr m !! name
  = Some {| d_storeActionType := t; d_name := name; d_playerID := p;
            d_credentials := cr; d_multiplayer := m |}.
Proof.
  intros Hin.
  destruct (createDispatchers t names p cr m !! name) as [d|] eqn:Hd.
  - by rewrite (createDispatchers_lookup _ _ _ _ _ _ _ Hd).
  - exfalso. revert Hd. unfold createDispatchers.
    generalize (∅ : gmap string Dispatcher). revert Hin.
    induction names as [|n names IH]; intros Hin acc; simpl.
    + by apply elem_of_nil in Hin.
    + apply elem_of_cons in Hin as [->|Hin]; [|by apply IH].
      clear IH. generalize (lookup_insert_eq acc n
        {| d_storeActionType := t; d_name := n; d_playerID := p;
           d_credentials := cr; d_multiplayer := m |}).
      generalize (<[n:={| d_storeActionType := t; d_name := n; d_playerID := p;
                          d_credentials := cr; d_multiplayer := m |}]> acc).
      induction names as [|n' names IH]; intros acc' Hacc; simpl; [congruence|].
      apply IH. destruct (decide (n' = n)) as [->|Hne].
      * by rewrite lookup_insert_eq.
      * by rewrite lookup_insert_ne.
Qed.

Lemma construct_single (I : @Imports G) o ms :
  opt_multiplayer o = MultiplayerUndefined →
  ∃ w, construct I o ms = (Returned w, ms)
       ∧ multiplayer (this w) = MultiplayerUndefined
       ∧ playerID (this w) = opt_playerID o
       ∧ credentials (this w) = opt_credentials o
       ∧ moves (this w)
         = createMoveDispatchers (moveNames (Game I (opt_game o)))
             (opt_playerID o) (opt_credentials o) MultiplayerUndefined
       ∧ events (this w)
         = createEventDispatchers
             (enabledEventNames (flow (Game I (opt_game o))))
             (opt_playerID o) (opt_credentials o) MultiplayerUndefined.
Proof.
  intros H. unfold construct, selectTransport. rewrite H. simpl.
  eexists. split; [reflexivity|]. simpl. by split_and!.
Qed.

(** C2. A client constructed with no multiplayer configuration and with
    playerID null or undefined: every call of one of its move or event
    dispatchers, in whatever world the call happens, builds and dispatches
    the action whose playerID is the ctx.currentPlayer the store holds at
    that call; so two calls of one dispatcher made while the store holds
    different current players build actions with different playerIDs. *)
Theorem dispatcher_resolves_current_player (I : @Imports G) o ms w0 ms' name d :
  opt_multiplayer o = MultiplayerUndefined →
  unbound (opt_playerID o) = true →
  construct I o ms = (Returned w0, ms') →
  moves (this w0) !! name = Some d ∨ events (this w0) !! name = Some d →
  (∀ w st args,
     store (this w) = Some st →
     ∃ action,
       dispatcherAction d args w = (Returned action, w)
       ∧ callDispatcher d args w = (dispatch action ≫= λ _, mret tt) w
       ∧ action = ActionCreators (d_storeActionType d) name args
                    (PlayerName (currentPlayer (state_ctx st)))
                    (opt_credentials o)
       ∧ payload_playerID <$> payload action
         = Some (PlayerName (currentPlayer (state_ctx st))))
  ∧ (∀ w1 w2 st1 st2 args1 args2 a1 a2,
       store (this w1) = Some st1 →
       store (this w2) = Some st2 →
       currentPlayer (state_ctx st1) ≠ currentPlayer (state_ctx st2) →
       dispatcherAction d args1 w1 = (Returned a1, w1) →
       dispatcherAction d args2 w2 = (Returned a2, w2) →
       payload_playerID <$> payload a1 ≠ payload_playerID <$> payload a2).
Proof.
  intros Hm Hp Hc Hd.
  destruct (construct_single I o ms Hm) as (w & Hw & _ & _ & _ & Hmv & Hev).
  rewrite Hw in Hc. injection Hc as <- <-.
  assert (d_name d = name ∧ d_playerID d = opt_playerID o
          ∧ d_credentials d = opt_credentials o
          ∧ d_multiplayer d = MultiplayerUndefined) as (Hn & Hpid & Hcr & Hmp).
  { destruct Hd as [Hd|Hd]; [rewrite Hmv in Hd|rewrite Hev in Hd];
      apply createDispatchers_lookup in Hd; by subst d. }
  assert (∀ w' st args,
            store (this w') = Some st →
            dispatcherAction d args w'
            = (Returned (ActionCreators (d_storeActionType d) name args
                           (PlayerName (currentPlayer (state_ctx st)))
                           (opt_credentials o)), w')) as Hact.
  { intros w' st args Hst. unfold dispatcherAction, assumedPlayerID.
    rewrite Hmp, Hpid, Hp, Hn, Hcr. simpl. run. by rewrite Hst. }
  split.
  - intros w' st args Hst. eexists. split_and!.
    + by apply Hact.
    + unfold callDispatcher.
      by rewrite (bind_returned _ _ _ _ _ (Hact _ _ args Hst)).
    + reflexivity.
    + reflexivity.
  - intros w1 w2 st1 st2 args1 args2 a1 a2 H1 H2 Hne Ha1 Ha2.
    rewrite (Hact _ _ args1 H1) in Ha1. rewrite (Hact _ _ args2 H2) in Ha2.
    injection Ha1 as <-. injection Ha2 as <-. simpl. congruence.
Qed.

(** ** The view projector *)

(** C3. Whenever the store holds a state, [getState] returns a snapshot,
    and in it: isActive is false if ctx.gameover is set, whatever the mode
    and identity; isActive is false for a multiplayer client if the
    active-player predicate is false for the client's playerID; isActive is
    true for a single-player client whose playerID is null or undefined if
    ctx.gameover is unset, whatever the predicate says. *)
Theorem getState_isActive c st :
  store c = Some st →
  ∃ snap,
    getState c = Some snap
    ∧ (gameover (state_ctx st) ≠ None → snap_isActive snap = false)
    ∧ (truthy (multiplayer c) = true →
       isPlayerActive (flow (game c)) (state_G st) (state_ctx st) (playerID c)
       = false →
       snap_isActive snap = false)
    ∧ (truthy (multiplayer c) = false →
       unbound (playerID c) = true →
       gameover (state_ctx st) = None →
       snap_isActive snap = true).
Proof.
  intros Hst. unfold getState. rewrite Hst. eexists. split; [reflexivity|].
  simpl. split_and!.
  - intros Hover. by rewrite bool_decide_eq_true_2.
  - intros -> ->. simpl. by case_bool_decide.
  - intros -> Hp ->. simpl.
    destruct (playerID c); try discriminate Hp; reflexivity.
Qed.

(** ** The log under RESET and moves *)

(** C4. Dispatching a RESET action returns and leaves the log empty,
    whatever it held; a MAKE_MOVE or GAME_EVENT dispatched next, for which
    the reducer produces a state carrying deltalog [d], returns and leaves
    the log equal to [d]. *)
Theorem reset_clears_log w (ra : @Action G) :
  type ra = RESET →
  ∃ w1,
    dispatch ra w = (Returned ra, w1)
    ∧ log (this w1) = []
    ∧ ∀ (mv : @Action G) st d,
        type mv = MAKE_MOVE ∨ type mv = GAME_EVENT →
        reducer (this w1) (store (this w1)) mv = Some st →
        state_deltalog st = Some d →
        ∃ w2, dispatch mv w1 = (Returned mv, w2)
              ∧ store (this w2) = Some st
              ∧ log (this w2) = d.
Proof.
  intros Hra. eexists. split; [|split].
  - apply dispatch_returned, inner_RESET, Hra.
  - reflexivity.
  - intros mv st d Hmv Hst Hd. eexists. split; [|split].
    + eapply dispatch_returned, inner_move; [exact Hmv|exact Hst|exact Hd].
    + reflexivity.
    + reflexivity.
Qed.

(** ** The transport interceptor *)

(** The transport interceptor alone, around any inner dispatch that
    returns: for an action not flagged
    clientOnly the transport interceptor calls the transport's onAction once,
    after the inner dispatch, with the state the store held before it and
    the action; for an action flagged clientOnly it makes no call; either
    way it returns what the inner dispatch returned. *)
Theorem TransportMiddleware_relays (next : @Dispatch G) action w result w' :
  next action w = (Returned result, w') →
  (clientOnly action ≠ Some true →
   TransportMiddleware next action w
   = (Returned result,
      {| this := this w';
         effects := effects w' ++ [OnAction (store (this w)) action] |}))
  ∧ (clientOnly action = Some true →
     TransportMiddleware next action w = (Returned result, w')).
Proof.
  intros Hnext. unfold TransportMiddleware. destruct w as [c e]. run.
  rewrite Hnext. split; intros Hflag.
  - by rewrite bool_decide_eq_true_2.
  - rewrite bool_decide_eq_false_2 by (intros Hne; by apply Hne).
    by destruct w'.
Qed.

(** ** Subscriptions *)

Lemma getState_set_subscribeCallback cb c :
  getState (set_subscribeCallback cb c) = getState c.
Proof. reflexivity. Qed.

Lemma subscribe_eq (fn : Listener) w :
  subscribe fn w
  = (Returned {| restore := subscribeCallback (this w) |},
     {| this := set_subscribeCallback (Chain (subscribeCallback (this w)) fn)
                                      (this w);
        effects := effects w
                     ++ [TransportSubscribe (Chain (subscribeCallback (this w)) fn)]
                     ++ notifications (subscribeCallback (this w)) (this w)
                     ++ [Notify fn (getState (this w))] |}).
Proof.
  unfold subscribe.
  rewrite bind_getThis, bind_setThis, bind_emit.
  rewrite (bind_returned _ _ _ _ _ (runCallback_eq _ _)).
  unfold mret, M_ret, notifications. simpl.
  by rewrite fmap_app, <- !app_assoc.
Qed.

(** C9. [subscribe fn] always returns, and before it does it calls the
    new callback once: after registering it with the transport, the
    listeners of the previous chain are told the current snapshot, oldest
    first, and then [fn] is told the value of [getState ()]. No dispatch is
    involved. *)
Theorem subscribe_calls_back (fn : Listener) w :
  subscribe fn w
  = (Returned {| restore := subscribeCallback (this w) |},
     {| this := set_subscribeCallback (Chain (subscribeCallback (this w)) fn)
                                      (this w);
        effects := effects w
                     ++ [TransportSubscribe (Chain (subscribeCallback (this w)) fn)]
                     ++ notifications (subscribeCallback (this w)) (this w)
                     ++ [Notify fn (getState (this w))] |}).
Proof.
  rewrite subscribe_eq. destruct w as [c e]. simpl. reflexivity.
Qed.

Lemma inner_frame a c :
  ∃ r c',
    subscribeCallback c' = subscribeCallback c
    ∧ ∀ e, LogMiddleware storeDispatch a {| this := c; effects := e |}
           = (r, {| this := c'; effects := e |}).
Proof.
  unfold LogMiddleware, storeDispatch. run.
  destruct (type a); try (do 2 eexists; split; [|intros e; reflexivity]; done);
    destruct (reducer c (store c) a) as [st|];
    try (do 2 eexists; split; [|intros e; reflexivity]; done);
    destruct (state_deltalog st);
    do 2 eexists; (split; [|intros e; reflexivity]); done.
Qed.

Lemma dispatch_frame a c :
  ∃ r c' ev,
    (∀ e, dispatch a {| this := c; effects := e |}
          = (r, {| this := c'; effects := e ++ ev |}))
    ∧ (∀ x, r = Returned x →
            ev = relayed (store c) a ++ notifications (subscribeCallback c) c')
    ∧ (∀ err, r = Thrown err → ev = []).
Proof.
  destruct (inner_frame a c) as (r & c' & Hcb & Hin). destruct r as [x|err].
  - exists (Returned x), c', (relayed (store c) a
                               ++ notifications (subscribeCallback c) c').
    split_and!; [|done|done].
    intros e. rewrite (dispatch_returned _ _ _ _ (Hin e)). simpl.
    by rewrite Hcb.
  - exists (Thrown err), c', []. split_and!; [|done|done].
    intros e. rewrite (dispatch_thrown _ _ _ _ (Hin e)). by rewrite app_nil_r.
Qed.

(** C5. Subscribing A, then B, then calling the handle B's subscription
    returned, always succeeds and leaves the client object equal to the one
    after subscribing A alone, with A's callback (the chain held before,
    then A) in place. The handle makes no call. From then on every dispatch
    behaves as after subscribing A alone: same outcome, same client, same
    calls; a dispatch that returns ends by telling the listeners of the
    earlier chain and then A the new snapshot, and tells B nothing (B being
    another listener than A and those registered before). Running a
    callback built by [subscribe] runs the previous chain first and the new
    listener last. *)
Theorem unsubscribe_latest_restores w (A B : Listener) :
  ∃ hA w1 hB w2 w3,
    subscribe A w = (Returned hA, w1)
    ∧ subscribe B w1 = (Returned hB, w2)
    ∧ callUnsubscribe hB w2 = (Returned tt, w3)
    ∧ this w3 = this w1
    ∧ subscribeCallback (this w3) = Chain (subscribeCallback (this w)) A
    ∧ effects w3 = effects w2
    ∧ (∀ prev fn w',
         runCallback (Chain prev fn) w'
         = (Returned tt,
            {| this := this w';
               effects := effects w' ++ notifications prev (this w')
                            ++ [Notify fn (getState (this w'))] |}))
    ∧ ∀ action, ∃ r c' ev,
        dispatch action w3 = (r, {| this := c'; effects := effects w3 ++ ev |})
        ∧ dispatch action w1 = (r, {| this := c'; effects := effects w1 ++ ev |})
        ∧ (∀ x, r = Returned x →
                ev = relayed (store (this w)) action
                       ++ notifications (subscribeCallback (this w)) c'
                       ++ [Notify A (getState c')])
        ∧ (B ≠ A → B ∉ listeners (subscribeCallback (this w)) →
           ∀ s, Notify B s ∉ ev).
Proof.
  do 5 eexists. split_and!.
  - apply subscribe_eq.
  - apply subscribe_eq.
  - reflexivity.
  - reflexivity.
  - reflexivity.
  - reflexivity.
  - intros prev fn w'. rewrite runCallback_eq. unfold notifications. simpl.
    by rewrite fmap_app.
  - intros action. simpl.
    set (c1 := set_subscribeCallback (Chain (subscribeCallback (this w)) A)
                                     (this w)).
    destruct (dispatch_frame action c1) as (r & c' & ev & Hrun & Hret & Hthr).
    exists r, c', ev. split_and!.
    + apply Hrun.
    + apply Hrun.
    + intros x Hx. rewrite (Hret x Hx). unfold notifications. simpl.
      by rewrite fmap_app.
    + intros Hne Hnotin s Hs. destruct r as [x|err].
      * rewrite (Hret x eq_refl) in Hs. apply elem_of_app in Hs as [Hs|Hs].
        -- unfold relayed in Hs. case_bool_decide.
           ++ by apply list_elem_of_singleton in Hs.
           ++ by apply elem_of_nil in Hs.
        -- apply list_elem_of_fmap in Hs as (fn & Heq & Hfn).
           injection Heq as -> _. simpl in Hfn.
           apply elem_of_app in Hfn as [Hfn|Hfn]; [done|].
           by apply list_elem_of_singleton in Hfn.
      * rewrite (Hthr err eq_refl) in Hs. by apply elem_of_nil in Hs.
Qed.

(** ** Identity updates *)

(** C10. [updateCredentials] always returns; it sets the credentials and
    replaces the move and event dispatchers by ones built for the new
    credentials (one per move name and per enabled event name), and nothing
    else: no call is made on the transport or any
    other collaborator, and playerID, gameID, the store's state, the log
    and every other field keep their values. [updatePlayerID] and
    [updateGameID], by contrast, end with a call on the transport. *)
Theorem updateCredentials_only_rebinds (cr : option string) w :
  ∃ c',
    updateCredentials cr w = (Returned tt, {| this := c'; effects := effects w |})
    ∧ credentials c' = cr
    ∧ moves c' = createMoveDispatchers (moveNames (game (this w)))
                   (playerID (this w)) cr (multiplayer (this w))
    ∧ events c' = createEventDispatchers
                    (enabledEventNames (flow (game (this w))))
                    (playerID (this w)) cr (multiplayer (this w))
    ∧ (∀ name d,
         moves c' !! name = Some d ∨ events c' !! name = Some d →
         d_credentials d = cr)
    ∧ (∀ name, name ∈ moveNames (game (this w)) →
               moves c' !! name
               = Some {| d_storeActionType := makeMove; d_name := name;
                         d_playerID := playerID (this w); d_credentials := cr;
                         d_multiplayer := multiplayer (this w) |})
    ∧ (∀ name, name ∈ enabledEventNames (flow (game (this w))) →
               events c' !! name
               = Some {| d_storeActionType := gameEvent; d_name := name;
                         d_playerID := playerID (this w); d_credentials := cr;
                         d_multiplayer := multiplayer (this w) |})
    ∧ playerID c' = playerID (this w)
    ∧ gameID c' = gameID (this w)
    ∧ store c' = store (this w)
    ∧ log c' = log (this w)
    ∧ game c' = game (this w)
    ∧ multiplayer c' = multiplayer (this w)
    ∧ subscribeCallback c' = subscribeCallback (this w)
    ∧ reducer c' = reducer (this w)
    ∧ initialState c' = initialState (this w)
    ∧ transport c' = transport (this w)
    ∧ gameMetadata c' = gameMetadata (this w)
    ∧ (∀ p, ∃ c'', updatePlayerID p w
                   = (Returned tt, {| this := c'';
                                      effects := effects w ++ [UpdatePlayerID p] |}))
    ∧ (∀ g, ∃ c'', updateGameID g w
                   = (Returned tt, {| this := c'';
                                      effects := effects w ++ [UpdateGameID g] |})).
Proof.
  exists (set_dispatchers
            (createMoveDispatchers (moveNames (game (this w)))
               (playerID (this w)) cr (multiplayer (this w)))
            (createEventDispatchers (enabledEventNames (flow (game (this w))))
               (playerID (this w)) cr (multiplayer (this w)))
            (set_credentials cr (this w))).
  split; [reflexivity|]. simpl. split_and!; try reflexivity.
  - intros name d [Hd|Hd]; simpl in Hd;
      apply createDispatchers_lookup in Hd; by subst d.
  - intros name Hin. by apply createDispatchers_elem.
  - intros name Hin. by apply createDispatchers_elem.
  - intros p. eexists. reflexivity.
  - intros g. eexists. reflexivity.
Qed.

(** ** The constructor *)

Lemma construct_eq (I : @Imports G) o ms :
  construct I o ms
  = match selectTransport I o (Game I (opt_game o)) ms with
    | (Thrown e, ms') => (Thrown e, ms')
    | (Returned (t, ev), ms') =>
      (Returned
         {| this :=
              {| game := Game I (opt_game o);
                 playerID := opt_playerID o;
                 gameID := opt_gameID o;
                 credentials := opt_credentials o;
                 multiplayer := opt_multiplayer o;
                 subscribeCallback := NoCallback;
                 reducer := CreateGameReducer I (Game I (opt_game o))
                              (opt_numPlayers o) (opt_multiplayer o);
                 initialState :=
                   match opt_multiplayer o with
                   | MultiplayerUndefined =>
                     Some (InitializeGame I (Game I (opt_game o)) (opt_numPlayers o))
                   | _ => None
                   end;
                 store :=
                   CreateGameReducer I (Game I (opt_game o))
                     (opt_numPlayers o) (opt_multiplayer o)
                     match opt_multiplayer o with
                     | MultiplayerUndefined =>
                       Some (InitializeGame I (Game I (opt_game o))
                               (opt_numPlayers o))
                     | _ => None
                     end reduxInit;
                 log := [];
                 transport := t;
                 moves := createMoveDispatchers
                            (moveNames (Game I (opt_game o)))
                            (opt_playerID o) (opt_credentials o)
                            (opt_multiplayer o);
                 events := createEventDispatchers
                             (enabledEventNames (flow (Game I (opt_game o))))
                             (opt_playerID o) (opt_credentials o)
                             (opt_multiplayer o);
                 gameMetadata := None |};
            effects := ev ++ [SubscribeGameMetadata] |}, ms')
    end.
Proof.
  unfold construct.
  by destruct (selectTransport I o (Game I (opt_game o)) ms)
    as [[[t ev]|e] ms'].
Qed.

Lemma construct_keeps_master (I : @Imports G) o ms m :
  localMaster_ ms = Some m →
  (isLocal o = true → ref (opt_game o) = ref (config m)) →
  snd (construct I o ms) = ms.
Proof.
  intros Hm Hsame. rewrite construct_eq.
  unfold selectTransport, transportFor, isLocal in *.
  destruct (opt_multiplayer o) as [| |[|]|t|mo]; simpl; try done.
  destruct (local mo); simpl.
  - rewrite Hm. rewrite bool_decide_eq_false_2; [done|].
    intros Hne. apply Hne. symmetry. by apply Hsame.
  - by destruct (server mo), (transport_class mo).
Qed.

Lemma constructAll_keeps_master (I : @Imports G) os ms m :
  localMaster_ ms = Some m →
  Forall (λ o, isLocal o = true → ref (opt_game o) = ref (config m)) os →
  constructAll I os ms = ms.
Proof.
  intros Hm. induction 1 as [|o os Ho _ IH]; simpl; [done|].
  by rewrite (construct_keeps_master I o ms m Hm Ho).
Qed.

Lemma construct_local (I : @Imports G) o ms :
  isLocal o = true →
  ∃ w ms' m,
    construct I o ms = (Returned w, ms')
    ∧ masterOf w = Some m
    ∧ localMaster_ ms' = Some m
    ∧ ref (config m) = ref (opt_game o)
    ∧ (∀ m0, localMaster_ ms = Some m0 →
             ref (config m0) = ref (opt_game o) →
             ms' = ms ∧ m = m0).
Proof.
  intros Hloc. rewrite construct_eq.
  unfold selectTransport, transportFor, isLocal in *.
  destruct (opt_multiplayer o) as [| |[|]|t|mo]; try discriminate Hloc.
  rewrite Hloc. destruct (localMaster_ ms) as [m0|] eqn:Hm0.
  - destruct (decide (ref (config m0) = ref (opt_game o))) as [Heq|Hne].
    + rewrite bool_decide_eq_false_2 by (intros Hne; by apply Hne).
      do 3 eexists. unfold masterOf. simpl. rewrite Hm0. simpl.
      split_and!; try done. by intros ? [= <-] _.
    + rewrite bool_decide_eq_true_2 by done.
      do 3 eexists. unfold masterOf. simpl.
      split_and!; try done. by intros ? [= <-] ?.
  - do 3 eexists. unfold masterOf. simpl. split_and!; try done.
Qed.

(** C7 (as amended). Two clients constructed with multiplayer
    [{ local: true }] against the same game definition object share one
    LocalMaster, and the second construction reuses it without allocating
    another, provided every [{ local: true }] client constructed between
    the two was given that same game definition object. The gameID plays
    no part. *)
Theorem local_master_reused (I : @Imports G) o1 mids o2 ms :
  isLocal o1 = true →
  isLocal o2 = true →
  ref (opt_game o2) = ref (opt_game o1) →
  Forall (λ o, isLocal o = true → ref (opt_game o) = ref (opt_game o1)) mids →
  ∃ w1 ms1 w2 ms2 master,
    construct I o1 ms = (Returned w1, ms1)
    ∧ construct I o2 (constructAll I mids ms1) = (Returned w2, ms2)
    ∧ masterOf w1 = Some master
    ∧ masterOf w2 = Some master
    ∧ localMaster_ ms2 = Some master
    ∧ allocated ms2 = allocated ms1.
Proof.
  intros H1 H2 Href Hmids.
  destruct (construct_local I o1 ms H1) as (w1 & ms1 & m & Hc1 & Hw1 & Hm & Hcfg & _).
  assert (constructAll I mids ms1 = ms1) as Hall.
  { apply (constructAll_keeps_master I mids ms1 m Hm).
    eapply Forall_impl; [exact Hmids|]. intros o Ho Hlo. rewrite Hcfg. auto. }
  destruct (construct_local I o2 ms1 H2)
    as (w2 & ms2 & m2 & Hc2 & Hw2 & Hm2 & _ & Hreuse).
  destruct (Hreuse m Hm) as [-> ->]; [congruence|].
  exists w1, ms1, w2, ms1, m. rewrite Hall. by split_and!.
Qed.

(** Every configuration that is neither absent nor [null] and has none of
    the recognized shapes is reported on the logger; the constructor
    returns a client with the default transport, its dispatchers built and
    its metadata subscription made, and leaves [localMaster_] alone. *)
Lemma invalid_multiplayer_reported (I : @Imports G) o ms :
  opt_multiplayer o ≠ MultiplayerUndefined →
  opt_multiplayer o ≠ MultiplayerNull →
  recognized (opt_multiplayer o) = false →
  ∃ w,
    construct I o ms = (Returned w, ms)
    ∧ effects w = [LoggerError "invalid multiplayer spec"; SubscribeGameMetadata]
    ∧ transport (this w) = {| impl := DefaultTransport; isConnected := true |}
    ∧ moves (this w)
      = createMoveDispatchers (moveNames (Game I (opt_game o)))
          (opt_playerID o) (opt_credentials o) (opt_multiplayer o)
    ∧ events (this w)
      = createEventDispatchers (enabledEventNames (flow (Game I (opt_game o))))
          (opt_playerID o) (opt_credentials o) (opt_multiplayer o)
    ∧ log (this w) = []
    ∧ subscribeCallback (this w) = NoCallback.
Proof.
  intros Hundef Hnull Hrec. rewrite construct_eq.
  unfold selectTransport, transportFor, recognized in *.
  destruct (opt_multiplayer o) as [| |[|]|t|mo]; try done.
  - eexists. split; [reflexivity|]. by split_and!.
  - eexists. split; [reflexivity|]. by split_and!.
  - apply orb_false_iff in Hrec as [Hrec Htr].
    apply orb_false_iff in Hrec as [Hloc Hsrv].
    rewrite Hloc. apply bool_decide_eq_false in Hsrv, Htr.
    destruct (server mo); [by destruct Hsrv|].
    destruct (transport_class mo); [by destruct Htr|].
    eexists. split; [reflexivity|]. by split_and!.
Qed.

Lemma construct_null_throws (I : @Imports G) o ms :
  opt_multiplayer o = MultiplayerNull →
  construct I o ms
  = (Thrown (TypeError "Cannot read property 'local' of null"), ms).
Proof.
  intros H. rewrite construct_eq. unfold selectTransport. by rewrite H.
Qed.

(** * Further properties *)

(** ** The store and the log interceptor, case by case *)

Lemma inner_spec a w :
  LogMiddleware storeDispatch a w
  = let c1 := set_store (reducer (this w) (store (this w)) a) (this w) in
    let keep := (Returned a, {| this := c1; effects := effects w |}) in
    let appended :=
      match store c1 with
      | None =>
        (Thrown (TypeError "state is null"),
         {| this := c1; effects := effects w |})
      | Some st =>
        match state_deltalog st with
        | None =>
          (Thrown (TypeError "deltalog is not iterable"),
           {| this := c1; effects := effects w |})
        | Some d =>
          (Returned a,
           {| this := set_log (log c1 ++ d) c1; effects := effects w |})
        end
      end in
    match type a with
    | MAKE_MOVE | GAME_EVENT => appended
    | RESET => (Returned a, {| this := set_log [] c1; effects := effects w |})
    | UPDATE =>
      (Returned a,
       {| this := set_log (merged (log c1) (action_deltalog a)) c1;
          effects := effects w |})
    | SYNC =>
      (Returned a,
       {| this := set_log (default [] (action_log a)) c1;
          effects := effects w |})
    | UNDO | REDO | OTHER _ => keep
    end.
Proof.
  unfold LogMiddleware, storeDispatch. run.
  destruct (type a); try reflexivity;
    destruct (reducer (this w) (store (this w)) a) as [st|]; try reflexivity;
    by destruct (state_deltalog st).
Qed.

(** What every dispatch leaves alone, and how the log and the trace can
    change. *)
Lemma dispatch_keeps a w :
  let w' := snd (dispatch a w) in
  game (this w') = game (this w)
  ∧ playerID (this w') = playerID (this w)
  ∧ gameID (this w') = gameID (this w)
  ∧ credentials (this w') = credentials (this w)
  ∧ multiplayer (this w') = multiplayer (this w)
  ∧ subscribeCallback (this w') = subscribeCallback (this w)
  ∧ reducer (this w') = reducer (this w)
  ∧ initialState (this w') = initialState (this w)
  ∧ transport (this w') = transport (this w)
  ∧ moves (this w') = moves (this w)
  ∧ events (this w') = events (this w)
  ∧ gameMetadata (this w') = gameMetadata (this w)
  ∧ store (this w') = reducer (this w) (store (this w)) a
  ∧ effects w `prefix_of` effects w'.
Proof.
  destruct (LogMiddleware storeDispatch a w) as [[r|e] w1] eqn:Hin.
  - rewrite (dispatch_returned _ _ _ _ Hin). simpl.
    rewrite inner_spec in Hin. simpl in Hin.
    assert (effects w1 = effects w ∧ ∃ l,
              this w1 = set_log l (set_store (reducer (this w) (store (this w)) a)
                                             (this w))) as [He [l Hl]].
    { destruct (type a); try (injection Hin as _ <-; split; [done|];
        by exists (log (this w)); destruct (this w));
        try (injection Hin as _ <-; split; [done|]; by eexists).
      all: destruct (reducer (this w) (store (this w)) a) as [st|];
        try discriminate Hin;
        destruct (state_deltalog st); try discriminate Hin;
        injection Hin as _ <-; split; [done|]; by eexists. }
    rewrite Hl, He. simpl. split_and!; try done.
    by apply prefix_app_r.
  - rewrite (dispatch_thrown _ _ _ _ Hin). simpl.
    rewrite inner_spec in Hin. simpl in Hin.
    destruct (type a); try discriminate Hin;
      destruct (reducer (this w) (store (this w)) a) as [st|];
      try (injection Hin as _ <-; simpl; by split_and!);
      destruct (state_deltalog st); try discriminate Hin;
      injection Hin as _ <-; simpl; by split_and!.
Qed.

(** ** More on the log *)

Lemma filter_above_nil (t : Z) d :
  Forall (λ x, (_stateID x ≤ t)%Z) d →
  filter (λ x, (_stateID x > t)%Z) d = [].
Proof.
  induction 1 as [|x d Hx _ IH]; [done|].
  rewrite filter_cons. case_decide; [lia|done].
Qed.

Lemma nondecreasing_bounded d x :
  nondecreasing d → x ∈ d → (_stateID x ≤ lastStateID d)%Z.
Proof.
  unfold nondecreasing, stateIDs, lastStateID. revert x.
  induction d as [|y d IH]; intros x Hs Hx; [by apply elem_of_nil in Hx|].
  rewrite fmap_cons in Hs. apply StronglySorted_inv in Hs as [Hs Hy].
  destruct d as [|z d].
  - apply list_elem_of_singleton in Hx as ->. simpl. lia.
  - rewrite last_cons_cons. apply elem_of_cons in Hx as [-> | Hx].
    + assert (z ∈ z :: d) as Hz by (apply elem_of_cons; by left).
      specialize (IH z Hs Hz). rewrite Forall_forall in Hy.
      assert (_stateID y ≤ _stateID z)%Z as Hle.
      { apply Hy. rewrite fmap_cons. apply elem_of_cons. by left. }
      lia.
    + by apply IH.
Qed.

Lemma lastStateID_app l d : d ≠ [] → lastStateID (l ++ d) = lastStateID d.
Proof.
  intros Hd. unfold lastStateID. rewrite last_app.
  destruct (last d) eqn:Hlast; [done|]. by apply last_None in Hlast.
Qed.

Lemma merged_unchanged l deltalog :
  Forall (λ x, (_stateID x ≤ lastStateID l)%Z) (default [] deltalog) →
  merged l deltalog = l.
Proof.
  intros H. unfold merged. rewrite (filter_above_nil _ _ H).
  by rewrite app_nil_r.
Qed.

Lemma merged_echo l d : nondecreasing d → merged (l ++ d) (Some d) = l ++ d.
Proof.
  intros Hd. apply merged_unchanged. simpl.
  destruct (decide (d = [])) as [->|Hne]; [done|].
  rewrite lastStateID_app by done.
  apply Forall_forall. intros x Hx. by apply nondecreasing_bounded.
Qed.

Lemma filter_keeps_last (t : Z) d :
  nondecreasing d →
  filter (λ x, (_stateID x > t)%Z) d ≠ [] →
  lastStateID (filter (λ x, (_stateID x > t)%Z) d) = lastStateID d.
Proof.
  intros Hd Hf.
  destruct (last d) as [z|] eqn:Hlast.
  - assert (_stateID z > t)%Z as Hz.
    { destruct (filter (λ x, (_stateID x > t)%Z) d) as [|y f] eqn:Hfy; [done|].
      assert (y ∈ filter (λ x, (_stateID x > t)%Z) d) as Hy
        by (rewrite Hfy; apply elem_of_cons; by left).
      apply list_elem_of_filter in Hy as [Hy Hyd].
      pose proof (nondecreasing_bounded d y Hd Hyd) as Hle.
      unfold lastStateID in Hle. rewrite Hlast in Hle. lia. }
    apply last_Some in Hlast as [d' ->].
    rewrite filter_app, filter_cons_True, filter_nil by done.
    unfold lastStateID. by rewrite !last_snoc.
  - apply last_None in Hlast. by subst d.
Qed.

Lemma merged_twice l deltalog :
  nondecreasing (default [] deltalog) →
  merged (merged l deltalog) deltalog = merged l deltalog.
Proof.
  intros Hd. apply merged_unchanged. unfold merged.
  destruct (decide (filter (λ x, (_stateID x > lastStateID l)%Z)
                           (default [] deltalog) = [])) as [Hnil|Hne].
  - rewrite Hnil, app_nil_r. apply Forall_forall. intros x Hx.
    destruct (decide (_stateID x ≤ lastStateID l)%Z) as [|Hgt]; [done|].
    exfalso. eapply (filter_nil_not_elem_of _ _ x Hnil); [lia|done].
  - rewrite lastStateID_app by done. rewrite filter_keeps_last by done.
    apply Forall_forall. intros x Hx. by apply nondecreasing_bounded.
Qed.

Lemma dispatch_log a w :
  type a = UPDATE ∨ type a = SYNC ∨ type a = RESET →
  ∃ w', dispatch a w = (Returned a, w')
        ∧ store (this w') = reducer (this w) (store (this w)) a
        ∧ log (this w')
          = match type a with
            | UPDATE => merged (log (this w)) (action_deltalog a)
            | SYNC => default [] (action_log a)
            | _ => []
            end.
Proof.
  intros Hty. pose proof (inner_spec a w) as Hin.
  destruct Hty as [H|[H|H]]; rewrite H in Hin |- *; simpl in Hin;
    (eexists; split; [apply dispatch_returned; exact Hin | by split]).
Qed.

(** X1. Dispatching a SYNC action always returns and leaves the log equal
    to the log the action carries, or empty when it carries none, whatever
    the client held before. *)
Theorem sync_replaces_log a w :
  type a = SYNC →
  ∃ w', dispatch a w = (Returned a, w')
        ∧ log (this w') = default [] (action_log a).
Proof.
  intros Hty. destruct (dispatch_log a w) as (w' & Hrun & _ & Hlog); [auto|].
  exists w'. split; [done|]. by rewrite Hlog, Hty.
Qed.

(** X2. Only RESET and SYNC can drop entries: for every action of another
    kind, whether its dispatch returns or throws, the log held before is a
    prefix of the log held after. *)
Theorem log_append_only a w :
  type a ≠ RESET →
  type a ≠ SYNC →
  log (this w) `prefix_of` log (this (snd (dispatch a w))).
Proof.
  intros Hr Hs.
  destruct (LogMiddleware storeDispatch a w) as [[r|e] w1] eqn:Hin.
  - rewrite (dispatch_returned _ _ _ _ Hin). simpl.
    rewrite inner_spec in Hin. simpl in Hin.
    destruct (type a); try done;
      try (injection Hin as _ <-; simpl; first [done | by apply prefix_app_r]).
    all: destruct (reducer (this w) (store (this w)) a) as [st|];
      try discriminate Hin;
      destruct (state_deltalog st); try discriminate Hin;
      injection Hin as _ <-; simpl; by apply prefix_app_r.
  - rewrite (dispatch_thrown _ _ _ _ Hin). simpl.
    rewrite inner_spec in Hin. simpl in Hin.
    destruct (type a); try discriminate Hin;
      destruct (reducer (this w) (store (this w)) a) as [st|];
      try (by injection Hin as _ <-);
      destruct (state_deltalog st); try discriminate Hin;
      by injection Hin as _ <-.
Qed.

(** X3. An UNDO, a REDO, or an action of a kind the log interceptor does
    not know always returns and leaves the log as it was: undoing a move
    does not take its entries out of the log. *)
Theorem other_actions_keep_log a w :
  type a = UNDO ∨ type a = REDO ∨ (∃ t, type a = OTHER t) →
  ∃ w', dispatch a w = (Returned a, w')
        ∧ log (this w') = log (this w)
        ∧ store (this w') = reducer (this w) (store (this w)) a.
Proof.
  intros Hty. pose proof (inner_spec a w) as Hin.
  destruct Hty as [H|[H|[t H]]]; rewrite H in Hin; simpl in Hin;
    (eexists; split; [apply dispatch_returned; exact Hin | by split]).
Qed.

(** X4. Delivering the same UPDATE twice in a row leaves the log as
    delivering it once does, whatever the log held, provided the stateIDs
    of its deltalog never decrease. *)
Theorem update_redelivery_idempotent a w :
  type a = UPDATE →
  nondecreasing (default [] (action_deltalog a)) →
  ∃ w1 w2,
    dispatch a w = (Returned a, w1)
    ∧ dispatch a w1 = (Returned a, w2)
    ∧ log (this w2) = log (this w1).
Proof.
  intros Hty Hd.
  destruct (dispatch_log a w) as (w1 & Hrun1 & _ & Hlog1); [auto|].
  destruct (dispatch_log a w1) as (w2 & Hrun2 & _ & Hlog2); [auto|].
  exists w1, w2. split_and!; try done.
  rewrite Hlog2, Hlog1, Hty. by apply merged_twice.
Qed.

(** X5. The echo of a local move is dropped: after a MAKE_MOVE or
    GAME_EVENT for which the reducer produced deltalog [d], with stateIDs
    that never decrease, an UPDATE carrying that same [d] leaves the log
    as the move left it. *)
Theorem update_echo_of_move_is_dropped (mv up : @Action G) w st d :
  type mv = MAKE_MOVE ∨ type mv = GAME_EVENT →
  reducer (this w) (store (this w)) mv = Some st →
  state_deltalog st = Some d →
  nondecreasing d →
  type up = UPDATE →
  action_deltalog up = Some d →
  ∃ w1 w2,
    dispatch mv w = (Returned mv, w1)
    ∧ log (this w1) = log (this w) ++ d
    ∧ dispatch up w1 = (Returned up, w2)
    ∧ log (this w2) = log (this w) ++ d.
Proof.
  intros Hmv Hst Hd Hnd Hup Hdl.
  pose proof (dispatch_returned _ _ _ _ (inner_move mv w st d Hmv Hst Hd)) as Hrun1.
  match type of Hrun1 with _ = (_, ?x) => set (w1 := x) in * end.
  destruct (dispatch_log up w1) as (w2 & Hrun2 & _ & Hlog2);
    [left; exact Hup|].
  exists w1, w2. split_and!; [exact Hrun1|reflexivity|exact Hrun2|].
  rewrite Hlog2, Hup, Hdl. simpl. by apply merged_echo.
Qed.

(** X6. An UPDATE that carries no deltalog, or one whose entries all have
    a stateID at or below that of the last entry held (at or below -1 when
    the log is empty), leaves the log as it was. *)
Theorem update_without_news_keeps_log a w :
  type a = UPDATE →
  Forall (λ x, (_stateID x ≤ lastStateID (log (this w)))%Z)
         (default [] (action_deltalog a)) →
  ∃ w', dispatch a w = (Returned a, w') ∧ log (this w') = log (this w).
Proof.
  intros Hty Hall.
  destruct (dispatch_log a w) as (w' & Hrun & _ & Hlog); [auto|].
  exists w'. split; [done|]. rewrite Hlog, Hty. by apply merged_unchanged.
Qed.

(** X7. A dispatch throws exactly when the action is a MAKE_MOVE or
    GAME_EVENT and the reducer's result is null or has no deltalog. The
    store then holds the reducer's result, but the log is unchanged, the
    transport is not called and no listener is told. *)
Theorem dispatch_throws_only_on_move_without_deltalog a w :
  ((∃ e, fst (dispatch a w) = Thrown e)
   ↔ (type a = MAKE_MOVE ∨ type a = GAME_EVENT)
     ∧ (reducer (this w) (store (this w)) a ≫= state_deltalog) = None)
  ∧ ∀ e w', dispatch a w = (Thrown e, w') →
            store (this w') = reducer (this w) (store (this w)) a
            ∧ log (this w') = log (this w)
            ∧ effects w' = effects w.
Proof.
  destruct (LogMiddleware storeDispatch a w) as [[r|e] w1] eqn:Hin.
  - rewrite (dispatch_returned _ _ _ _ Hin). simpl.
    split; [|intros ?? [=]]. split; [intros [? [=]]|].
    intros [Hty Hnone]. exfalso.
    rewrite inner_spec in Hin. simpl in Hin.
    destruct Hty as [Hty|Hty]; rewrite Hty in Hin;
      destruct (reducer (this w) (store (this w)) a) as [st|];
      try discriminate Hin; simpl in Hnone; rewrite Hnone in Hin;
      discriminate Hin.
  - rewrite (dispatch_thrown _ _ _ _ Hin). simpl.
    rewrite inner_spec in Hin. simpl in Hin.
    destruct (type a) eqn:Hty; try discriminate Hin;
      (destruct (reducer (this w) (store (this w)) a) as [st|] eqn:Hst;
       [destruct (state_deltalog st) eqn:Hd; [discriminate Hin|]|]);
      injection Hin as _ <-;
      (split; [split; [intros _; split; [auto|by rewrite ?Hst; simpl] | eauto]
              |intros ?? [= _ <-]; simpl; by rewrite ?Hst]).
Qed.

(** X8. A dispatch that returns gives back the action and adds to the
    trace, in this order: the transport's onAction with the state held
    before the reducer ran (unless the action is clientOnly), then one call
    per subscribed listener, oldest first, each with the snapshot of the
    client as the dispatch leaves it, that is with the reducer's new state
    and the log the log interceptor produced. *)
Theorem dispatch_trace a w r w' :
  dispatch a w = (Returned r, w') →
  r = a
  ∧ store (this w') = reducer (this w) (store (this w)) a
  ∧ effects w'
    = effects w ++ relayed (store (this w)) a
        ++ notifications (subscribeCallback (this w)) (this w').
Proof.
  intros Hrun.
  destruct (LogMiddleware storeDispatch a w) as [[r1|e] w1] eqn:Hin.
  - rewrite (dispatch_returned _ _ _ _ Hin) in Hrun.
    injection Hrun as <- <-. simpl.
    pose proof (dispatch_keeps a w) as Hk.
    rewrite (dispatch_returned _ _ _ _ Hin) in Hk. simpl in Hk.
    destruct Hk as (_ & _ & _ & _ & _ & Hcb & _ & _ & _ & _ & _ & _ & Hst & _).
    rewrite Hcb. split_and!; [|done|].
    + rewrite inner_spec in Hin. simpl in Hin.
      destruct (type a); try (by injection Hin as <- _);
        destruct (reducer (this w) (store (this w)) a) as [st|];
        try discriminate Hin;
        destruct (state_deltalog st); try discriminate Hin;
        by injection Hin as <- _.
    + f_equal. rewrite inner_spec in Hin. simpl in Hin.
      destruct (type a); try (by injection Hin as _ <-);
        destruct (reducer (this w) (store (this w)) a) as [st|];
        try discriminate Hin;
        destruct (state_deltalog st); try discriminate Hin;
        by injection Hin as _ <-.
  - rewrite (dispatch_thrown _ _ _ _ Hin) in Hrun. discriminate Hrun.
Qed.

(** ** More on the view projector and the dispatchers *)

(** X9. Whenever the store holds a state, the snapshot's isActive is true
    exactly when ctx.gameover is unset and either the active-player
    predicate holds for the client's playerID or the client is
    single-player with playerID null or undefined. In particular a
    single-player client bound to a player is active exactly when the
    predicate says so and the game is not over. *)
Theorem isActive_iff c st snap :
  store c = Some st →
  getState c = Some snap →
  snap_isActive snap = true
  ↔ gameover (state_ctx st) = None
    ∧ (isPlayerActive (flow (game c)) (state_G st) (state_ctx st) (playerID c)
       = true
       ∨ (truthy (multiplayer c) = false ∧ unbound (playerID c) = true)).
Proof.
  intros Hst Hsnap. unfold getState in Hsnap. rewrite Hst in Hsnap.
  injection Hsnap as <-. simpl.
  destruct (gameover (state_ctx st)) as [over|].
  - rewrite bool_decide_eq_true_2 by done.
    split; [discriminate|]. by intros [? _].
  - rewrite bool_decide_eq_false_2 by (intros H; by apply H).
    destruct (isPlayerActive _ _ _ _), (truthy (multiplayer c)),
      (playerID c); simpl; split; try done; auto;
      intros [_ [?|[? ?]]]; done.
Qed.

Lemma construct_fields (I : @Imports G) o ms w ms' :
  construct I o ms = (Returned w, ms') →
  game (this w) = Game I (opt_game o)
  ∧ playerID (this w) = opt_playerID o
  ∧ gameID (this w) = opt_gameID o
  ∧ credentials (this w) = opt_credentials o
  ∧ multiplayer (this w) = opt_multiplayer o
  ∧ subscribeCallback (this w) = NoCallback
  ∧ log (this w) = []
  ∧ gameMetadata (this w) = None
  ∧ initialState (this w)
    = match opt_multiplayer o with
      | MultiplayerUndefined =>
        Some (InitializeGame I (Game I (opt_game o)) (opt_numPlayers o))
      | _ => None
      end
  ∧ store (this w) = reducer (this w) (initialState (this w)) reduxInit
  ∧ inSync (this w).
Proof.
  rewrite construct_eq.
  destruct (selectTransport I o (Game I (opt_game o)) ms)
    as [[[t ev]|e] ms1]; [|discriminate].
  intros [= <- _]. simpl. unfold inSync. simpl. by split_and!.
Qed.


(** X11. A dispatcher of a single-player client with playerID null or
    undefined, called while the store holds null, throws a TypeError before
    anything is dispatched: the client and the trace are left exactly as
    they were. *)
Theorem unbound_dispatcher_without_state_throws d args w :
  truthy (d_multiplayer d) = false →
  unbound (d_playerID d) = true →
  store (this w) = None →
  callDispatcher d args w = (Thrown (TypeError "state is null"), w).
Proof.
  intros Hm Hp Hst. unfold callDispatcher, dispatcherAction, assumedPlayerID.
  rewrite Hm, Hp. simpl. run. by rewrite Hst.
Qed.

(** ** More on subscriptions *)

(** X12. A handle restores the callback that was in place before its own
    subscription: after subscribing A and then B, calling A's handle
    removes both A and B, leaving the client as it was before A
    subscribed. *)
Theorem older_handle_removes_later_listeners w (A B : Listener) :
  ∃ hA w1 hB w2 w3,
    subscribe A w = (Returned hA, w1)
    ∧ subscribe B w1 = (Returned hB, w2)
    ∧ callUnsubscribe hA w2 = (Returned tt, w3)
    ∧ this w3 = this w
    ∧ listeners (subscribeCallback (this w3))
      = listeners (subscribeCallback (this w)).
Proof.
  do 5 eexists. split_and!.
  - apply subscribe_eq.
  - apply subscribe_eq.
  - reflexivity.
  - simpl. by destruct (this w).
  - reflexivity.
Qed.

(** X13. Calling the handles in the order the subscriptions were made
    brings the first listener back: after subscribing A and then B,
    calling A's handle and then B's leaves A subscribed and B not. *)
Theorem handles_called_oldest_first_keep_first_listener w (A B : Listener) :
  ∃ hA w1 hB w2 w3 w4,
    subscribe A w = (Returned hA, w1)
    ∧ subscribe B w1 = (Returned hB, w2)
    ∧ callUnsubscribe hA w2 = (Returned tt, w3)
    ∧ callUnsubscribe hB w3 = (Returned tt, w4)
    ∧ this w4 = this w1
    ∧ listeners (subscribeCallback (this w4))
      = listeners (subscribeCallback (this w)) ++ [A].
Proof.
  do 6 eexists. split_and!.
  - apply subscribe_eq.
  - apply subscribe_eq.
  - reflexivity.
  - reflexivity.
  - reflexivity.
  - reflexivity.
Qed.

Lemma runOps_cons (I : @Imports G) op ops w :
  runOps I (op :: ops) w = runOps I ops (snd (runOp I op w)).
Proof. reflexivity. Qed.

Lemma runOps_snoc (I : @Imports G) op ops w :
  runOps I (ops ++ [op]) w = snd (runOp I op (runOps I ops w)).
Proof. unfold runOps. by rewrite foldl_snoc. Qed.

Lemma runOp_subscribe (I : @Imports G) fn w :
  snd (runOp I (OpSubscribe fn) w)
  = {| this := set_subscribeCallback (Chain (subscribeCallback (this w)) fn)
                                     (this w);
       effects := effects w
                    ++ [TransportSubscribe (Chain (subscribeCallback (this w)) fn)]
                    ++ notifications (subscribeCallback (this w)) (this w)
                    ++ [Notify fn (getState (this w))] |}.
Proof.
  unfold runOp. by rewrite (bind_returned _ _ _ _ _ (subscribe_eq fn w)).
Qed.

Lemma subscribe_all_listeners (I : @Imports G) fns w :
  listeners (subscribeCallback (this (runOps I (OpSubscribe <$> fns) w)))
  = listeners (subscribeCallback (this w)) ++ fns
  ∧ store (this (runOps I (OpSubscribe <$> fns) w)) = store (this w)
  ∧ log (this (runOps I (OpSubscribe <$> fns) w)) = log (this w).
Proof.
  revert w. induction fns as [|fn fns IH]; intros w.
  - simpl. by rewrite app_nil_r.
  - rewrite fmap_cons, runOps_cons, runOp_subscribe.
    destruct (IH {| this := set_subscribeCallback
                              (Chain (subscribeCallback (this w)) fn) (this w);
                    effects := effects w
                      ++ [TransportSubscribe (Chain (subscribeCallback (this w)) fn)]
                      ++ notifications (subscribeCallback (this w)) (this w)
                      ++ [Notify fn (getState (this w))] |})
      as (Hl & Hs & Hlog).
    rewrite Hl, Hs, Hlog. simpl. by rewrite <- app_assoc.
Qed.

(** X14. Listeners are told in subscription order, once per subscription:
    after subscribing the listeners [fns] one after the other, every
    dispatch that returns tells the listeners registered before and then
    [fns], in that order, all the same snapshot; a listener subscribed
    twice is told twice. *)
Theorem subscribers_notified_in_order (I : @Imports G) fns w a r w2 :
  dispatch a (runOps I (OpSubscribe <$> fns) w) = (Returned r, w2) →
  effects w2
  = effects (runOps I (OpSubscribe <$> fns) w)
      ++ relayed (store (this w)) a
      ++ ((λ fn, Notify fn (getState (this w2)))
            <$> (listeners (subscribeCallback (this w)) ++ fns)).
Proof.
  intros Hrun.
  destruct (subscribe_all_listeners I fns w) as (Hl & Hs & _).
  set (w1 := runOps I (OpSubscribe <$> fns) w) in *.
  destruct (LogMiddleware storeDispatch a w1) as [[r1|e] w1'] eqn:Hin.
  - rewrite (dispatch_returned _ _ _ _ Hin) in Hrun. injection Hrun as _ <-.
    simpl. pose proof (dispatch_keeps a w1) as Hk.
    rewrite (dispatch_returned _ _ _ _ Hin) in Hk. simpl in Hk.
    destruct Hk as (_ & _ & _ & _ & _ & Hcb & _).
    unfold notifications. rewrite Hcb, Hl, Hs.
    rewrite inner_spec in Hin. simpl in Hin.
    assert (effects w1' = effects w1) as ->; [|done].
    destruct (type a); try (by injection Hin as _ <-);
      destruct (reducer (this w1) (store (this w1)) a) as [st|];
      try discriminate Hin;
      destruct (state_deltalog st); try discriminate Hin;
      by injection Hin as _ <-.
  - rewrite (dispatch_thrown _ _ _ _ Hin) in Hrun. discriminate Hrun.
Qed.

(** ** More on the constructor *)

Lemma selectTransport_cases (I : @Imports G) o thisGame ms :
  let noop := {| impl := DefaultTransport; isConnected := true |} in
  let opts gameName :=
    {| t_gameID := opt_gameID o; t_playerID := opt_playerID o;
       t_gameName := gameName; t_numPlayers := opt_numPlayers o |} in
  selectTransport I o thisGame ms
  = match opt_multiplayer o with
    | MultiplayerUndefined => (Returned (noop, []), ms)
    | MultiplayerNull =>
      (Thrown (TypeError "Cannot read property 'local' of null"), ms)
    | MultiplayerBool true =>
      (Returned (newTransport I (SocketIOTransport (opts (name thisGame)) ""
                                   (opt_socketOpts o)), []), ms)
    | MultiplayerBool false | MultiplayerPrimitive _ =>
      (Returned (noop, [LoggerError "invalid multiplayer spec"]), ms)
    | MultiplayerObj mo =>
      let '(t, ev, ms') := transportFor I o thisGame noop mo ms in
      (Returned (t, ev), ms')
    end.
Proof. unfold selectTransport. by destruct (opt_multiplayer o) as [| |[|]| |]. Qed.

(** X16. A constructor call that returns has reported "invalid multiplayer
    spec" on the logger exactly when [multiplayer] is defined and has none
    of the recognized shapes, and has left the client with the default
    no-op transport exactly when [multiplayer] is undefined or has none of
    the recognized shapes. *)
Theorem invalid_spec_reported_iff (I : @Imports G) o ms w ms' :
  construct I o ms = (Returned w, ms') →
  (LoggerError "invalid multiplayer spec" ∈ effects w
   ↔ opt_multiplayer o ≠ MultiplayerUndefined
     ∧ recognized (opt_multiplayer o) = false)
  ∧ (impl (transport (this w)) = DefaultTransport
     ↔ opt_multiplayer o = MultiplayerUndefined
       ∨ recognized (opt_multiplayer o) = false).
Proof.
  rewrite construct_eq, selectTransport_cases. simpl.
  assert (∀ msg, LoggerError msg ∉ [@SubscribeGameMetadata G]) as Hno.
  { intros msg H. by apply list_elem_of_singleton in H. }
  assert (LoggerError "invalid multiplayer spec"
          ∈ [LoggerError "invalid multiplayer spec"; @SubscribeGameMetadata G])
    as Hyes by (apply elem_of_cons; by left).
  destruct (opt_multiplayer o) as [| |[|]|t|mo]; simpl; try discriminate.
  - intros [= <- _]. simpl. split; split; try done; auto.
    + intros H. by apply Hno in H.
    + by intros [? _].
  - intros [= <- _]. simpl. split; split; try done.
    + intros H. by apply Hno in H.
    + by intros [_ ?].
    + by intros [?|?].
  - intros [= <- _]. simpl. split; split; try done; auto.
  - intros [= <- _]. simpl. split; split; try done; auto.
  - unfold transportFor.
    destruct (local mo); simpl.
    { intros [= <- _]. simpl. split; split; try done.
      - intros H. by apply Hno in H.
      - by intros [_ ?].
      - by intros [?|?]. }
    destruct (server mo) as [srv|]; simpl.
    { intros [= <- _]. simpl. split; split; try done.
      - intros H. by apply Hno in H.
      - by intros [_ ?].
      - by intros [?|?]. }
    destruct (transport_class mo) as [cls|]; simpl.
    { intros [= <- _]. simpl. split; split; try done.
      - intros H. by apply Hno in H.
      - by intros [_ ?].
      - by intros [?|?]. }
    intros [= <- _]. simpl. split; split; try done; auto.
Qed.

(** X17. Which transport an object configuration selects: [local: true]
    wins over [server] and [transport], and [server] wins over [transport].
    The in-process and socket transports are given the name of the
    processed game, a custom transport class the name of the game
    definition as passed; [multiplayer: true] is the socket transport with
    the empty server address. Only the in-process choice can touch
    [localMaster_]. *)
Theorem transport_precedence (I : @Imports G) o ms :
  let opts gameName :=
    {| t_gameID := opt_gameID o; t_playerID := opt_playerID o;
       t_gameName := gameName; t_numPlayers := opt_numPlayers o |} in
  (∀ mo, opt_multiplayer o = MultiplayerObj mo → local mo = true →
     ∃ w ms' m,
       construct I o ms = (Returned w, ms')
       ∧ impl (transport (this w))
         = LocalTransport m (opts (name (Game I (opt_game o)))))
  ∧ (∀ mo srv, opt_multiplayer o = MultiplayerObj mo → local mo = false →
       server mo = Some srv →
       ∃ w,
         construct I o ms = (Returned w, ms)
         ∧ impl (transport (this w))
           = SocketIOTransport (opts (name (Game I (opt_game o)))) srv
                               (opt_socketOpts o))
  ∧ (∀ mo cls, opt_multiplayer o = MultiplayerObj mo → local mo = false →
       server mo = None → transport_class mo = Some cls →
       ∃ w,
         construct I o ms = (Returned w, ms)
         ∧ impl (transport (this w))
           = CustomTransport cls (opts (def_name (opt_game o))))
  ∧ (opt_multiplayer o = MultiplayerBool true →
     ∃ w,
       construct I o ms = (Returned w, ms)
       ∧ multiplayer (this w) = MultiplayerBool true
       ∧ impl (transport (this w))
         = SocketIOTransport (opts (name (Game I (opt_game o)))) ""
                             (opt_socketOpts o)).
Proof.
  intros opts. rewrite construct_eq, selectTransport_cases. simpl.
  split_and!.
  - intros mo -> Hloc. unfold transportFor. rewrite Hloc. by do 3 eexists.
  - intros mo srv -> Hloc Hsrv. unfold transportFor. rewrite Hloc, Hsrv.
    by eexists.
  - intros mo cls -> Hloc Hsrv Hcls. unfold transportFor.
    rewrite Hloc, Hsrv, Hcls. by eexists.
  - intros ->. by eexists.
Qed.

(** X18. Constructing a client whose configuration is not [local: true]
    never creates, replaces or reads the module's LocalMaster: the module
    state is left exactly as it was, whether the constructor returns or
    throws. *)
Theorem nonlocal_construction_keeps_module (I : @Imports G) o ms :
  isLocal o = false → snd (construct I o ms) = ms.
Proof.
  intros Hloc. rewrite construct_eq, selectTransport_cases. simpl.
  unfold isLocal in Hloc.
  destruct (opt_multiplayer o) as [| |[|]|t|mo]; try done.
  unfold transportFor. rewrite Hloc.
  by destruct (server mo), (transport_class mo).
Qed.

(** X19. Constructing a [local: true] client when the module holds no
    LocalMaster, or holds one made for another game definition object,
    creates a new LocalMaster for the processed game, attaches the game
    definition to it as [config], stores it in [localMaster_] in place of
    the old one and gives it to the client's transport. *)
Theorem local_master_created_for_new_game (I : @Imports G) o ms :
  isLocal o = true →
  (∀ m0, localMaster_ ms = Some m0 → ref (config m0) ≠ ref (opt_game o)) →
  ∃ w ms',
    construct I o ms = (Returned w, ms')
    ∧ masterOf w = Some {| master_id := allocated ms;
                           master_game := Game I (opt_game o);
                           config := opt_game o |}
    ∧ localMaster_ ms' = masterOf w
    ∧ allocated ms' = S (allocated ms).
Proof.
  intros Hloc Hnew. rewrite construct_eq, selectTransport_cases. simpl.
  unfold isLocal in Hloc.
  destruct (opt_multiplayer o) as [| |[|]|t|mo]; try discriminate Hloc.
  unfold transportFor. rewrite Hloc.
  destruct (localMaster_ ms) as [m0|] eqn:Hm0.
  - rewrite bool_decide_eq_true_2 by (by apply Hnew).
    do 2 eexists. split; [reflexivity|]. unfold masterOf. simpl. by split_and!.
  - do 2 eexists. split; [reflexivity|]. unfold masterOf. simpl. by split_and!.
Qed.

(** ** Sequences of calls *)

Lemma snd_bind_ret {A : Type} (m : M A) w :
  snd ((m ≫= λ _, mret tt) w) = snd (m w).
Proof. unfold mbind, M_bind, mret, M_ret. by destruct (m w) as [[x|e] w']. Qed.

Lemma dispatcherAction_cases d args w :
  (∃ e, dispatcherAction d args w = (Thrown e, w))
  ∨ (∃ action, dispatcherAction d args w = (Returned action, w)).
Proof.
  unfold dispatcherAction, assumedPlayerID.
  destruct (negb (truthy (d_multiplayer d)) && unbound (d_playerID d));
    run; [|eauto].
  destruct (store (this w)); eauto.
Qed.

(** Every call is a dispatch of some action, or leaves the world as it
    is, or assigns fields of the client and makes one call on the
    transport. *)
Lemma runOp_shape (I : @Imports G) op w :
  (∃ a, snd (runOp I op w) = snd (dispatch a w))
  ∨ snd (runOp I op w) = w
  ∨ (∃ ev c', snd (runOp I op w) = {| this := c'; effects := effects w ++ ev |}
              ∧ game c' = game (this w)
              ∧ multiplayer c' = multiplayer (this w)
              ∧ reducer c' = reducer (this w)
              ∧ initialState c' = initialState (this w)
              ∧ transport c' = transport (this w)
              ∧ store c' = store (this w)
              ∧ log c' = log (this w)
              ∧ (inSync (this w) → inSync c')
              ∧ ((∀ p, op ≠ OpUpdatePlayerID p) →
                 playerID c' = playerID (this w))).
Proof.
  destruct op as [a|d args|fn|h| |p|g|cr| | | |m].
  - left. exists a. apply snd_bind_ret.
  - destruct (dispatcherAction_cases d args w) as [[e He]|[action Ha]].
    + right. left. unfold runOp, callDispatcher.
      by rewrite (bind_thrown _ _ _ _ _ He).
    + left. exists action. unfold runOp, callDispatcher.
      rewrite (bind_returned _ _ _ _ _ Ha). apply snd_bind_ret.
  - right. right. rewrite runOp_subscribe. do 2 eexists.
    split; [reflexivity|]. by split_and!.
  - right. right. exists [], (set_subscribeCallback (restore h) (this w)).
    split; [simpl; by rewrite app_nil_r|]. by split_and!.
  - right. right. exists [Connect], (this w).
    split; [done|]. by split_and!.
  - right. right. do 2 eexists. split; [reflexivity|]. simpl.
    split_and!; try done. intros H. by specialize (H p).
  - right. right. do 2 eexists. split; [reflexivity|]. simpl.
    split_and!; try done.
  - right. right. eexists [], _. split; [simpl; by rewrite app_nil_r|].
    simpl. split_and!; try done.
  - left. eexists. unfold runOp, reset. rewrite bind_getThis.
    apply snd_bind_ret.
  - left. eexists. apply snd_bind_ret.
  - left. eexists. apply snd_bind_ret.
  - right. right. exists [], (set_gameMetadata (Some m) (this w)).
    split; [simpl; by rewrite app_nil_r|]. by split_and!.
Qed.

Lemma runOp_keeps (I : @Imports G) op w :
  game (this (snd (runOp I op w))) = game (this w)
  ∧ multiplayer (this (snd (runOp I op w))) = multiplayer (this w)
  ∧ reducer (this (snd (runOp I op w))) = reducer (this w)
  ∧ initialState (this (snd (runOp I op w))) = initialState (this w)
  ∧ transport (this (snd (runOp I op w))) = transport (this w)
  ∧ effects w `prefix_of` effects (snd (runOp I op w))
  ∧ (inSync (this w) → inSync (this (snd (runOp I op w)))).
Proof.
  destruct (runOp_shape I op w)
    as [[a ->]|[->|(ev & c' & -> & Hg & Hm & Hr & Hi & Ht & _ & _ & Hsync & _)]].
  - destruct (dispatch_keeps a w)
      as (Hg & Hp & _ & Hc & Hm & _ & Hr & Hi & Ht & Hmv & Hev & _ & _ & Hpre).
    split_and!; try done. unfold inSync.
    rewrite Hg, Hp, Hc, Hm, Hmv, Hev. done.
  - by split_and!.
  - simpl. split_and!; try done. by apply prefix_app_r.
Qed.

Lemma runOps_keeps (I : @Imports G) ops w :
  game (this (runOps I ops w)) = game (this w)
  ∧ multiplayer (this (runOps I ops w)) = multiplayer (this w)
  ∧ reducer (this (runOps I ops w)) = reducer (this w)
  ∧ initialState (this (runOps I ops w)) = initialState (this w)
  ∧ transport (this (runOps I ops w)) = transport (this w)
  ∧ effects w `prefix_of` effects (runOps I ops w)
  ∧ (inSync (this w) → inSync (this (runOps I ops w))).
Proof.
  revert w. induction ops as [|op ops IH]; intros w; [by split_and!|].
  rewrite runOps_cons.
  destruct (IH (snd (runOp I op w))) as (Hg & Hm & Hr & Hi & Ht & Hpre & Hs).
  destruct (runOp_keeps I op w) as (Hg1 & Hm1 & Hr1 & Hi1 & Ht1 & Hpre1 & Hs1).
  split_and!; try congruence; [by etrans|auto].
Qed.

(** X20. The dispatcher tables always match the identity: after
    construction and after any sequence of calls on the client (dispatches,
    dispatcher calls, subscriptions, identity updates, reset, undo, redo,
    metadata pushes), [moves] and [events] are the tables
    [createDispatchers] builds for the playerID and credentials the client
    holds at that moment. *)
Theorem dispatchers_stay_in_sync (I : @Imports G) o ms w0 ms' ops :
  construct I o ms = (Returned w0, ms') →
  inSync (this (runOps I ops w0)).
Proof.
  intros Hc.
  destruct (construct_fields I o ms w0 ms' Hc)
    as (_ & _ & _ & _ & _ & _ & _ & _ & _ & _ & Hsync).
  by apply runOps_keeps.
Qed.

(** X21. No call on a client replaces what the constructor chose: after
    any sequence of calls the processed game, the multiplayer
    configuration, the reducer, the state [reset] goes back to and the
    transport object are the ones the client started with, and the trace
    has only grown. *)
Theorem calls_keep_configuration (I : @Imports G) ops w :
  game (this (runOps I ops w)) = game (this w)
  ∧ multiplayer (this (runOps I ops w)) = multiplayer (this w)
  ∧ reducer (this (runOps I ops w)) = reducer (this w)
  ∧ initialState (this (runOps I ops w)) = initialState (this w)
  ∧ transport (this (runOps I ops w)) = transport (this w)
  ∧ effects w `prefix_of` effects (runOps I ops w).
Proof.
  destruct (runOps_keeps I ops w) as (? & ? & ? & ? & ? & ? & _).
  by split_and!.
Qed.

(** X22. [reset] always dispatches the action [ActionCreators.reset]
    builds from the state computed when the client was constructed: the
    result of [InitializeGame] for a single-player client, null for every
    other, whatever calls were made in between. If that action is of kind
    RESET the log is empty afterwards. *)
Theorem reset_goes_back_to_construction_state (I : @Imports G) o ms w0 ms' ops :
  construct I o ms = (Returned w0, ms') →
  let initial :=
    match opt_multiplayer o with
    | MultiplayerUndefined =>
      Some (InitializeGame I (Game I (opt_game o)) (opt_numPlayers o))
    | _ => None
    end in
  let w := runOps I ops w0 in
  reset I w = (dispatch (ActionCreators_reset I initial) ≫= λ _, mret tt) w
  ∧ (type (ActionCreators_reset I initial) = RESET →
     fst (reset I w) = Returned tt
     ∧ log (this (snd (reset I w))) = []
     ∧ store (this (snd (reset I w)))
       = reducer (this w0) (store (this w)) (ActionCreators_reset I initial)).
Proof.
  intros Hc initial w.
  destruct (construct_fields I o ms w0 ms' Hc)
    as (_ & _ & _ & _ & _ & _ & _ & _ & Hinit & _).
  destruct (runOps_keeps I ops w0) as (_ & _ & Hred & Hi & _).
  fold w in Hi, Hred.
  assert (reset I w
          = (dispatch (ActionCreators_reset I initial) ≫= λ _, mret tt) w)
    as Heq.
  { unfold reset. rewrite bind_getThis. by rewrite Hi, Hinit. }
  split; [exact Heq|]. intros Hty. rewrite Heq.
  destruct (dispatch_log (ActionCreators_reset I initial) w)
    as (w' & Hrun & Hst & Hlog); [auto|].
  rewrite (bind_returned _ _ _ _ _ Hrun). simpl.
  rewrite Hlog, Hty, Hst, Hred. done.
Qed.

(** ** The debug panel *)

Lemma livePanels_snoc calls call live :
  livePanels (calls ++ [call]) live
  = match call with
    | NewDebug p => livePanels calls live ++ [p]
    | Destroy p => filter (λ q, q ≠ p) (livePanels calls live)
    end.
Proof.
  revert live. induction calls as [|c calls IH]; intros live; simpl.
  - by destruct call.
  - destruct c; apply IH.
Qed.

Lemma runMountOp_invariant m op :
  livePanels (panelCalls m) [] = option_list (_debugPanel m) →
  livePanels (panelCalls (runMountOp m op)) []
  = option_list (_debugPanel (runMountOp m op))
  ∧ debug (runMountOp m op) = debug m
  ∧ (debug m = Some false → panelCalls m = [] →
     panelCalls (runMountOp m op) = []).
Proof.
  intros Hinv. destruct m as [dbg [p|] calls]; destruct op; simpl in *.
  - unfold mount. simpl. rewrite andb_false_r. by split_and!.
  - unfold unmount. simpl. rewrite livePanels_snoc, Hinv. simpl.
    split_and!; try done.
    + rewrite filter_cons, decide_False by (intros H; by apply H). done.
    + intros _ Hnil. rewrite Hnil in Hinv. discriminate Hinv.
  - unfold mount. simpl. rewrite andb_true_r. case_bool_decide as Hdbg; simpl.
    + rewrite livePanels_snoc, Hinv. by split_and!.
    + by split_and!.
  - unfold unmount. simpl. by split_and!.
Qed.

(** X24. At most one debug panel is alive, and it is the one the client
    holds: after any sequence of [mount] and [unmount] calls on a new
    client, the panels created and not yet destroyed are exactly the one in
    [_debugPanel] if there is one, and none otherwise; no panel is lost
    without [$destroy] having been called on it. With [debug: false] no
    panel is ever created. *)
Theorem one_live_debug_panel (dbg : option bool) (ops : list MountOp) :
  let m := foldl runMountOp (unmounted dbg) ops in
  livePanels (panelCalls m) [] = option_list (_debugPanel m)
  ∧ debug m = dbg
  ∧ (dbg = Some false → panelCalls m = [] ∧ _debugPanel m = None).
Proof.
  induction ops as [|op ops IH] using rev_ind; [by split_and!|].
  rewrite foldl_snoc. simpl in *.
  destruct IH as (Hinv & Hdbg & Hoff).
  destruct (runMountOp_invariant (foldl runMountOp (unmounted dbg) ops) op Hinv)
    as (Hinv' & Hdbg' & Hoff').
  split; [exact Hinv'|split; [congruence|]].
  intros Hf. destruct (Hoff Hf) as [Hnil Hnone].
  assert (panelCalls (runMountOp (foldl runMountOp (unmounted dbg) ops) op) = [])
    as Hnil' by (apply Hoff'; congruence).
  split; [done|]. rewrite Hnil' in Hinv'. simpl in Hinv'.
  destruct (_debugPanel (runMountOp (foldl runMountOp (unmounted dbg) ops) op));
    [discriminate Hinv'|done].
Qed.

(** X25. [mount] and [unmount] are idempotent, and unmounting undoes a
    mount up to the record of calls: mounting twice creates one panel,
    unmounting twice destroys at most one, and after [mount] then
    [unmount] the client holds no panel. *)
Theorem mount_unmount_idempotent (m : Mounting) :
  mount (mount m) = mount m
  ∧ unmount (unmount m) = unmount m
  ∧ _debugPanel (unmount (mount m)) = None
  ∧ (debug m ≠ Some false → is_Some (_debugPanel (mount m))).
Proof.
  unfold mount, unmount.
  destruct m as [[[|]|] [p|] calls]; cbn;
    split_and!; try reflexivity; try (intros _; by eexists); try done.
Qed.

(** ** The transport interceptor in the pipeline *)




End Properties.

(** * The properties at concrete inputs *)

(** The two sample clients are what the constructor returns. *)
Lemma single_constructed :
  construct Draw.imports (Draw.opts Draw.def MultiplayerUndefined PlayerUndefined)
            Draw.module0
  = (Returned Draw.single, Draw.module0).
Proof. vm_compute. reflexivity. Qed.

Lemma remote_constructed :
  construct Draw.imports (Draw.opts Draw.def (MultiplayerBool true) (PlayerName "1"))
            Draw.module0
  = (Returned Draw.remote, Draw.module0)
  ∧ store (this Draw.remote) = None
  ∧ log (this Draw.remote) = [].
Proof. vm_compute. by split_and!. Qed.

Lemma update_keeps_log_increasing_witness :
  ∃ w', dispatchAll [Draw.update [Draw.logEntry 1; Draw.logEntry 2];
                     Draw.update [Draw.logEntry 2; Draw.logEntry 3];
                     Draw.update [Draw.logEntry 1; Draw.logEntry 2]]
                    Draw.remote = (Returned tt, w')
        ∧ log (this w')
          = foldl (λ l a, merged l (action_deltalog a)) (log (this Draw.remote))
                  [Draw.update [Draw.logEntry 1; Draw.logEntry 2];
                   Draw.update [Draw.logEntry 2; Draw.logEntry 3];
                   Draw.update [Draw.logEntry 1; Draw.logEntry 2]]
        ∧ increasing (log (this w'))
        ∧ NoDup (stateIDs (log (this w'))).
Proof.
  apply (update_keeps_log_increasing Draw.remote).
  - vm_compute. constructor.
  - repeat constructor; by vm_compute.
Defined.

Lemma dispatcher_resolves_current_player_witness :
  let d := {| d_storeActionType := makeMove; d_name := "draw";
              d_playerID := PlayerUndefined; d_credentials := None;
              d_multiplayer := MultiplayerUndefined |} in
  let w1 := Draw.single in
  let w2 := Draw.after (callDispatcher d []) Draw.single in
  moves (this Draw.single) !! "draw" = Some d
  ∧ (∃ a1, dispatcherAction d [] w1 = (Returned a1, w1)
           ∧ payload_playerID <$> payload a1 = Some (PlayerName "0"))
  ∧ (∃ a2, dispatcherAction d [] w2 = (Returned a2, w2)
           ∧ payload_playerID <$> payload a2 = Some (PlayerName "1")).
Proof.
  intros d w1 w2.
  assert (construct Draw.imports
            (Draw.opts Draw.def MultiplayerUndefined PlayerUndefined)
            Draw.module0 = (Returned Draw.single, Draw.module0)) as Hc
    by (vm_compute; reflexivity).
  assert (moves (this Draw.single) !! "draw" = Some d) as Hd
    by (vm_compute; reflexivity).
  destruct (dispatcher_resolves_current_player Draw.imports
              (Draw.opts Draw.def MultiplayerUndefined PlayerUndefined)
              Draw.module0 Draw.single Draw.module0 "draw" d
              eq_refl eq_refl Hc (or_introl Hd)) as [H _].
  split; [exact Hd|]. split.
  - destruct (H w1 Draw.initial [] eq_refl) as (a & Ha & _ & _ & Hp).
    exists a. split; [exact Ha | exact Hp].
  - assert (∃ st, store (this w2) = Some st
                  ∧ currentPlayer (state_ctx st) = "1") as (st & Hst & Hcur)
      by (eexists; split; vm_compute; reflexivity).
    destruct (H w2 st [] Hst) as (a & Ha & _ & _ & Hp).
    exists a. split; [exact Ha | by rewrite <- Hcur].
Defined.

Lemma getState_isActive_witness :
  ∃ snap,
    getState (this Draw.single) = Some snap
    ∧ (gameover (state_ctx Draw.initial) ≠ None → snap_isActive snap = false)
    ∧ (truthy (multiplayer (this Draw.single)) = true →
       isPlayerActive (flow (game (this Draw.single))) (state_G Draw.initial)
         (state_ctx Draw.initial) (playerID (this Draw.single)) = false →
       snap_isActive snap = false)
    ∧ (truthy (multiplayer (this Draw.single)) = false →
       unbound (playerID (this Draw.single)) = true →
       gameover (state_ctx Draw.initial) = None →
       snap_isActive snap = true).
Proof.
  apply (getState_isActive (this Draw.single) Draw.initial).
  vm_compute. reflexivity.
Defined.

Lemma reset_clears_log_witness :
  let w := Draw.after (dispatchAll [Draw.draw "0"; Draw.draw "1"]) Draw.single in
  let ra := Draw.resetAction (Some Draw.initial) in
  length (log (this w)) = 2
  ∧ ∃ w1,
      dispatch ra w = (Returned ra, w1)
      ∧ log (this w1) = []
      ∧ ∀ (mv : @Action nat) st d,
          type mv = MAKE_MOVE ∨ type mv = GAME_EVENT →
          reducer (this w1) (store (this w1)) mv = Some st →
          state_deltalog st = Some d →
          ∃ w2, dispatch mv w1 = (Returned mv, w2)
                ∧ store (this w2) = Some st
                ∧ log (this w2) = d.
Proof.
  intros w ra. split; [reflexivity|].
  apply (reset_clears_log w ra). reflexivity.
Defined.

Lemma TransportMiddleware_relays_witness :
  let next := LogMiddleware storeDispatch in
  let w' := Draw.after (next (Draw.draw "0")) Draw.single in
  (clientOnly (Draw.draw "0") ≠ Some true →
   TransportMiddleware next (Draw.draw "0") Draw.single
   = (Returned (Draw.draw "0"),
      {| this := this w';
         effects := effects w'
                      ++ [OnAction (store (this Draw.single)) (Draw.draw "0")] |}))
  ∧ (clientOnly (Draw.draw "0") = Some true →
     TransportMiddleware next (Draw.draw "0") Draw.single
     = (Returned (Draw.draw "0"), w')).
Proof.
  intros next w'.
  apply (TransportMiddleware_relays next (Draw.draw "0") Draw.single
           (Draw.draw "0") w').
  vm_compute. reflexivity.
Defined.

Lemma local_master_reused_witness :
  let o1 := Draw.opts Draw.def Draw.colocated (PlayerName "0") in
  let o2 := Draw.opts Draw.def Draw.colocated (PlayerName "1") in
  let mids := [Draw.opts Draw.def' MultiplayerUndefined PlayerUndefined;
               Draw.opts Draw.def' (MultiplayerBool true) (PlayerName "0");
               Draw.opts Draw.def Draw.colocated PlayerUndefined] in
  ∃ w1 ms1 w2 ms2 master,
    construct Draw.imports o1 Draw.module0 = (Returned w1, ms1)
    ∧ construct Draw.imports o2 (constructAll Draw.imports mids ms1)
      = (Returned w2, ms2)
    ∧ masterOf w1 = Some master
    ∧ masterOf w2 = Some master
    ∧ localMaster_ ms2 = Some master
    ∧ allocated ms2 = allocated ms1.
Proof.
  intros o1 o2 mids.
  apply (local_master_reused Draw.imports o1 mids o2 Draw.module0).
  - reflexivity.
  - reflexivity.
  - reflexivity.
  - repeat constructor; intros H; by vm_compute in H.
Defined.

(** C7, as stated, fails: after a client for another game definition has
    been constructed with [{ local: true }], a second client for the first
    definition gets a LocalMaster of its own. *)
Lemma local_master_replaced_in_between :
  let oA := Draw.opts Draw.def Draw.colocated (PlayerName "0") in
  let oC := Draw.opts Draw.def' Draw.colocated (PlayerName "0") in
  let oB := Draw.opts Draw.def Draw.colocated (PlayerName "1") in
  let '(wA, ms1) := Draw.build oA Draw.module0 in
  let ms2 := constructAll Draw.imports [oC] ms1 in
  let '(wB, ms3) := Draw.build oB ms2 in
  isLocal oA = true ∧ isLocal oB = true
  ∧ opt_game oA = opt_game oB ∧ opt_gameID oA = opt_gameID oB
  ∧ construct Draw.imports oA Draw.module0 = (Returned wA, ms1)
  ∧ construct Draw.imports oB ms2 = (Returned wB, ms3)
  ∧ master_id <$> masterOf wA = Some 0
  ∧ master_id <$> masterOf wB = Some 2
  ∧ masterOf wA ≠ masterOf wB
  ∧ allocated ms1 = 1 ∧ allocated ms3 = 3.
Proof.
  vm_compute. split_and!; try reflexivity. discriminate.
Qed.

(** C8 at the failing input: constructing a client with [multiplayer: null]
    throws a TypeError; nothing is reported on the logger and no client is
    returned. *)
Theorem null_multiplayer_throws :
  opt_multiplayer (Draw.opts Draw.def MultiplayerNull PlayerUndefined)
    ≠ MultiplayerUndefined
  ∧ recognized MultiplayerNull = false
  ∧ construct Draw.imports (Draw.opts Draw.def MultiplayerNull PlayerUndefined)
                Draw.module0
    = (Thrown (TypeError "Cannot read property 'local' of null"), Draw.module0).
Proof.
  split_and!; [done|reflexivity|]. by apply construct_null_throws.
Qed.

Lemma invalid_multiplayer_reported_example :
  ∃ w,
    construct Draw.imports
      (Draw.opts Draw.def (MultiplayerBool false) PlayerUndefined) Draw.module0
    = (Returned w, Draw.module0)
    ∧ effects w = [LoggerError "invalid multiplayer spec"; SubscribeGameMetadata]
    ∧ impl (transport (this w)) = DefaultTransport.
Proof.
  destruct (invalid_multiplayer_reported Draw.imports
              (Draw.opts Draw.def (MultiplayerBool false) PlayerUndefined)
              Draw.module0) as (w & Hc & Hev & Ht & _); [done|done|reflexivity|].
  exists w. split_and!; [exact Hc|exact Hev|by rewrite Ht].
Qed.

(** C1, as stated, fails: a client with an empty log that receives one
    UPDATE whose deltalog carries stateIDs 2, 1, 2 keeps all three entries,
    since each exceeds the sentinel -1. *)
Lemma update_keeps_unordered_deltalog :
  let w' := Draw.after (dispatchAll [Draw.update [Draw.logEntry 2;
                                                   Draw.logEntry 1;
                                                   Draw.logEntry 2]])
                       Draw.remote in
  log (this Draw.remote) = []
  ∧ stateIDs (log (this w')) = [2; 1; 2]%Z
  ∧ ¬ NoDup (stateIDs (log (this w')))
  ∧ ¬ increasing (log (this w')).
Proof.
  split_and!.
  - reflexivity.
  - reflexivity.
  - intros H. vm_compute in H. apply NoDup_cons in H as [H _].
    apply H. apply elem_of_cons. right. apply elem_of_cons. by left.
  - intros H. vm_compute in H. apply StronglySorted_inv in H as [_ H].
    apply Forall_cons in H as [H _]. by vm_compute in H.
Qed.

(** * The further properties at concrete inputs *)

Lemma sync_replaces_log_witness :
  log (this Play.synced) = [Draw.logEntry 1; Draw.logEntry 2]
  ∧ ∃ w', dispatch Play.sync Play.synced = (Returned Play.sync, w')
          ∧ log (this w') = [Draw.logEntry 5].
Proof.
  split; [reflexivity|].
  apply (sync_replaces_log Play.sync Play.synced). reflexivity.
Defined.

Lemma log_append_only_witness :
  log (this Play.synced)
    `prefix_of` log (this (snd (dispatch (Draw.update [Draw.logEntry 9])
                                         Play.synced))).
Proof.
  apply (log_append_only (Draw.update [Draw.logEntry 9]) Play.synced);
    discriminate.
Defined.

Lemma other_actions_keep_log_witness :
  ∃ w', dispatch (Draw.plain UNDO) Play.synced = (Returned (Draw.plain UNDO), w')
        ∧ log (this w') = log (this Play.synced)
        ∧ store (this w')
          = reducer (this Play.synced) (store (this Play.synced))
                    (Draw.plain UNDO).
Proof.
  apply (other_actions_keep_log (Draw.plain UNDO) Play.synced).
  left. reflexivity.
Defined.

Lemma update_redelivery_idempotent_witness :
  let a := Draw.update [Draw.logEntry 2; Draw.logEntry 3; Draw.logEntry 3] in
  ∃ w1 w2,
    dispatch a Play.synced = (Returned a, w1)
    ∧ dispatch a w1 = (Returned a, w2)
    ∧ log (this w2) = log (this w1).
Proof.
  intros a. apply (update_redelivery_idempotent a Play.synced).
  - reflexivity.
  - vm_compute. repeat constructor; by vm_compute.
Defined.

Lemma update_echo_of_move_is_dropped_witness :
  ∃ w1 w2,
    dispatch (Draw.draw "0") Draw.single = (Returned (Draw.draw "0"), w1)
    ∧ log (this w1) = log (this Draw.single) ++ [Draw.logEntry 0]
    ∧ dispatch (Draw.update [Draw.logEntry 0]) w1
      = (Returned (Draw.update [Draw.logEntry 0]), w2)
    ∧ log (this w2) = log (this Draw.single) ++ [Draw.logEntry 0].
Proof.
  apply (update_echo_of_move_is_dropped (Draw.draw "0")
           (Draw.update [Draw.logEntry 0]) Draw.single Play.firstDraw
           [Draw.logEntry 0]).
  - left. reflexivity.
  - vm_compute. reflexivity.
  - reflexivity.
  - vm_compute. repeat constructor.
  - reflexivity.
  - reflexivity.
Defined.

Lemma update_without_news_keeps_log_witness :
  ∃ w', dispatch (Draw.update [Draw.logEntry 1; Draw.logEntry 2]) Play.synced
        = (Returned (Draw.update [Draw.logEntry 1; Draw.logEntry 2]), w')
        ∧ log (this w') = log (this Play.synced).
Proof.
  apply (update_without_news_keeps_log
           (Draw.update [Draw.logEntry 1; Draw.logEntry 2]) Play.synced).
  - reflexivity.
  - vm_compute. repeat constructor; by vm_compute.
Defined.

Lemma dispatch_trace_witness :
  let w' := Draw.after (dispatch (Draw.draw "0")) Play.watched in
  Draw.draw "0" = Draw.draw "0"
  ∧ store (this w')
    = reducer (this Play.watched) (store (this Play.watched)) (Draw.draw "0")
  ∧ effects w'
    = effects Play.watched
        ++ relayed (store (this Play.watched)) (Draw.draw "0")
        ++ notifications (subscribeCallback (this Play.watched)) (this w').
Proof.
  intros w'.
  apply (dispatch_trace (Draw.draw "0") Play.watched (Draw.draw "0") w').
  vm_compute. reflexivity.
Defined.

Lemma isActive_iff_witness :
  snap_isActive Play.firstSnapshot = true
  ↔ gameover (state_ctx Draw.initial) = None
    ∧ (isPlayerActive (flow (game (this Draw.single))) (state_G Draw.initial)
         (state_ctx Draw.initial) (playerID (this Draw.single)) = true
       ∨ (truthy (multiplayer (this Draw.single)) = false
          ∧ unbound (playerID (this Draw.single)) = true)).
Proof.
  apply (isActive_iff (this Draw.single) Draw.initial Play.firstSnapshot).
  - vm_compute. reflexivity.
  - vm_compute. reflexivity.
Defined.


Lemma unbound_dispatcher_without_state_throws_witness :
  store (this Play.misconfigured) = None
  ∧ callDispatcher (Play.drawDispatcher PlayerUndefined (MultiplayerBool false))
                   [] Play.misconfigured
    = (Thrown (TypeError "state is null"), Play.misconfigured).
Proof.
  split; [reflexivity|].
  apply (unbound_dispatcher_without_state_throws
           (Play.drawDispatcher PlayerUndefined (MultiplayerBool false)) []
           Play.misconfigured); reflexivity.
Defined.

Lemma subscribers_notified_in_order_witness :
  let w1 := runOps Draw.imports (OpSubscribe <$> [7; 8; 7]) Draw.single in
  let w2 := Draw.after (dispatch (Draw.draw "0")) w1 in
  effects w2
  = effects w1
      ++ relayed (store (this Draw.single)) (Draw.draw "0")
      ++ ((λ fn, Notify fn (getState (this w2)))
            <$> (listeners (subscribeCallback (this Draw.single)) ++ [7; 8; 7])).
Proof.
  intros w1 w2.
  apply (subscribers_notified_in_order Draw.imports [7; 8; 7] Draw.single
           (Draw.draw "0") (Draw.draw "0") w2).
  vm_compute. reflexivity.
Defined.

Lemma invalid_spec_reported_iff_witness :
  (LoggerError "invalid multiplayer spec" ∈ effects Play.misconfigured
   ↔ MultiplayerBool false ≠ MultiplayerUndefined
     ∧ recognized (MultiplayerBool false) = false)
  ∧ (impl (transport (this Play.misconfigured)) = DefaultTransport
     ↔ MultiplayerBool false = MultiplayerUndefined
       ∨ recognized (MultiplayerBool false) = false).
Proof.
  apply (invalid_spec_reported_iff Draw.imports
           (Draw.opts Draw.def (MultiplayerBool false) PlayerUndefined)
           Draw.module0 Play.misconfigured Draw.module0).
  vm_compute. reflexivity.
Defined.

Lemma nonlocal_construction_keeps_module_witness :
  is_Some (localMaster_ Play.module1)
  ∧ snd (construct Draw.imports
           (Draw.opts Draw.def' (MultiplayerBool true) (PlayerName "0"))
           Play.module1)
    = Play.module1.
Proof.
  split; [by eexists|].
  apply (nonlocal_construction_keeps_module Draw.imports
           (Draw.opts Draw.def' (MultiplayerBool true) (PlayerName "0"))
           Play.module1).
  reflexivity.
Defined.

Lemma local_master_created_for_new_game_witness :
  let o := Draw.opts Draw.def' Draw.colocated (PlayerName "0") in
  ∃ w ms',
    construct Draw.imports o Play.module1 = (Returned w, ms')
    ∧ masterOf w = Some {| master_id := 1;
                           master_game := Draw.gameObj;
                           config := Draw.def' |}
    ∧ localMaster_ ms' = masterOf w
    ∧ allocated ms' = 2.
Proof.
  intros o.
  apply (local_master_created_for_new_game Draw.imports o Play.module1).
  - reflexivity.
  - intros m0 Hm0. vm_compute in Hm0. injection Hm0 as <-. vm_compute. lia.
Defined.

Lemma dispatchers_stay_in_sync_witness :
  inSync (this (runOps Draw.imports
                  [OpUpdatePlayerID (PlayerName "1");
                   OpDispatch (Draw.draw "0");
                   OpUpdateCredentials (Some "secret");
                   OpCall (Play.drawDispatcher PlayerUndefined MultiplayerUndefined) []]
                  Draw.single)).
Proof.
  apply (dispatchers_stay_in_sync Draw.imports
           (Draw.opts Draw.def MultiplayerUndefined PlayerUndefined)
           Draw.module0 Draw.single Draw.module0).
  vm_compute. reflexivity.
Defined.

Lemma reset_goes_back_to_construction_state_witness :
  let w := runOps Draw.imports [OpDispatch (Draw.draw "0");
                                OpDispatch (Draw.draw "1")] Draw.single in
  length (log (this w)) = 2
  ∧ reset Draw.imports w
    = (dispatch (Draw.resetAction (Some Draw.initial)) ≫= λ _, mret tt) w
  ∧ (type (Draw.resetAction (Some Draw.initial)) = RESET →
     fst (reset Draw.imports w) = Returned tt
     ∧ log (this (snd (reset Draw.imports w))) = []
     ∧ store (this (snd (reset Draw.imports w)))
       = reducer (this Draw.single) (store (this w))
                 (Draw.resetAction (Some Draw.initial))).
Proof.
  intros w. split; [reflexivity|].
  apply (reset_goes_back_to_construction_state Draw.imports
           (Draw.opts Draw.def MultiplayerUndefined PlayerUndefined)
           Draw.module0 Draw.single Draw.module0
           [OpDispatch (Draw.draw "0"); OpDispatch (Draw.draw "1")]).
  vm_compute. reflexivity.
Defined.

(** * The transport interceptor at concrete inputs *)


